(** * async-stream-generator: the generator-to-stream adapter of [index.js]

    The adapter wraps an async generator object in a Node.js object-mode
    [Readable].  This development embeds [isAsyncIterator], the
    [StreamGenerators] constructor, [StreamGenerators.prototype._read] and
    the exported [streamify] function, together with the part of the
    JavaScript run-time they touch: property reads, [typeof], calls of
    user functions, promises with their reactions, and the host stream.
    The generators of the examples, [chunksToLines] and [numberOfLines],
    are embedded as the lists of values they yield. *)

From Stdlib Require Import List String Ascii ZArith NArith Bool Arith Lia.
From Stdlib Require Import DecimalString.
From Equations Require Import Equations.
From Equations.Prop Require Import Logic.
Import ListNotations.
Local Open Scope string_scope.
Local Open Scope list_scope.
Set Warnings "-register-all".

(** ** JavaScript values *)

Module JS.

(** Property keys: string-named properties and well-known symbols. *)
Inductive propkey : Type :=
| KStr (name : string)
| KSym (name : string).

Definition propkey_eqb (a b : propkey) : bool :=
  match a, b with
  | KStr x, KStr y => String.eqb x y
  | KSym x, KSym y => String.eqb x y
  | _, _ => false
  end.

(** [Symbol.asyncIterator]. *)
Definition Symbol_asyncIterator : propkey := KSym "asyncIterator".

(** Identity of a user function; what a call does is given by the
    program under test (see [behaviour] below). *)
Abbreviation fid := nat (only parsing).

(** Values.  Numbers are the integer-valued ones.  An object is the list
    of the properties visible on it (own and inherited, first match
    wins); a function is an object that can be called. *)
Inductive jsval : Type :=
| JUndefined
| JNull
| JBool (b : bool)
| JNum (n : Z)
| JStr (s : string)
| JObject (props : list (propkey * jsval))
| JFunction (f : fid) (props : list (propkey * jsval)).

(** Completion of an expression: a value, or a thrown exception. *)
Inductive completion (A : Type) : Type :=
| Normal (a : A)
| Throw (e : jsval).
Arguments Normal {A} a.
Arguments Throw {A} e.

(** [new TypeError(msg)]. *)
Definition TypeError (msg : string) : jsval :=
  JObject [(KStr "name", JStr "TypeError"); (KStr "message", JStr msg)].

(** [new Error(msg)]. *)
Definition Error (msg : string) : jsval :=
  JObject [(KStr "name", JStr "Error"); (KStr "message", JStr msg)].

(** [typeof v]. *)
Definition typeof (v : jsval) : string :=
  match v with
  | JUndefined => "undefined"
  | JNull => "object"
  | JBool _ => "boolean"
  | JNum _ => "number"
  | JStr _ => "string"
  | JObject _ => "object"
  | JFunction _ _ => "function"
  end.

(** [v == null]: true of [null] and [undefined] only. *)
Definition loose_eq_null (v : jsval) : bool :=
  match v with
  | JUndefined | JNull => true
  | _ => false
  end.

(** [false === v]: strict equality with the boolean [false]. *)
Definition strict_eq_false (v : jsval) : bool :=
  match v with
  | JBool false => true
  | _ => false
  end.

Fixpoint assoc (k : propkey) (props : list (propkey * jsval)) : jsval :=
  match props with
  | [] => JUndefined
  | (k', v) :: rest => if propkey_eqb k k' then v else assoc k rest
  end.

(** [v[k]].  Reading a property of [null] or [undefined] throws; a
    primitive is looked up on its wrapper's prototype, which holds none of
    the keys read by the adapter ([Symbol.asyncIterator], [next], [done],
    [value]); a missing property reads as [undefined]. *)
Definition get (v : jsval) (k : propkey) : completion jsval :=
  match v with
  | JUndefined => Throw (TypeError "Cannot read properties of undefined")
  | JNull => Throw (TypeError "Cannot read properties of null")
  | JBool _ | JNum _ | JStr _ => Normal JUndefined
  | JObject props => Normal (assoc k props)
  | JFunction _ props => Normal (assoc k props)
  end.

End JS.
Import JS.

(** ** The host stream

    Modelled from the spec: the surrounding stream machinery (Node's
    [Readable], an external collaborator of the adapter) is not part of the
    sources.  The record keeps what the spec says the stream tracks on the
    adapter's behalf: whether a read is in progress, whether end-of-stream
    has been seen, the items handed to the consumer in order, and the error
    notifications.  [push] and [emit] are the two entry points the adapter
    calls; [null] is the end-of-stream marker (line 29 of the source emits
    it with [this.push(null)]). *)

Module Host.

Record Readable : Type := mkReadable {
  objectMode : bool;
  highWaterMark : nat;
  reading : bool;           (* a [_read] call has not been answered by a push *)
  ended : bool;             (* the end-of-stream marker has been pushed *)
  buffer : list jsval;      (* items emitted to the consumer, oldest first *)
  errors : list jsval       (* ["error"] notifications, oldest first *)
}.

(** [Readable.call(this, { objectMode: true })]. *)
Definition Readable_call (object_mode : bool) : Readable :=
  {| objectMode := object_mode; highWaterMark := 16;
     reading := false; ended := false; buffer := []; errors := [] |}.

(** [stream.push(chunk)] in object mode; the result tells whether the
    buffer is still below the high-water mark.  [null] ends the stream; a
    chunk pushed after the end is not delivered and is reported as an
    error. *)
Definition push (chunk : jsval) (s : Readable) : bool * Readable :=
  match chunk with
  | JNull =>
      (false,
       {| objectMode := objectMode s; highWaterMark := highWaterMark s;
          reading := false; ended := true;
          buffer := buffer s; errors := errors s |})
  | _ =>
      if ended s then
        (false,
         {| objectMode := objectMode s; highWaterMark := highWaterMark s;
            reading := reading s; ended := true; buffer := buffer s;
            errors := errors s ++ [Error "stream.push() after EOF"] |})
      else
        (Nat.ltb (List.length (buffer s ++ [chunk])) (highWaterMark s),
         {| objectMode := objectMode s; highWaterMark := highWaterMark s;
            reading := false; ended := false;
            buffer := buffer s ++ [chunk]; errors := errors s |})
  end.

(** [stream.emit(name, e)] with a listener attached: an ["error"] event
    notifies the consumer; the stream's own flags are left as they are. *)
Definition emit (name : string) (e : jsval) (s : Readable) : Readable :=
  if String.eqb name "error" then
    {| objectMode := objectMode s; highWaterMark := highWaterMark s;
       reading := reading s; ended := ended s; buffer := buffer s;
       errors := errors s ++ [e] |}
  else s.

(** The host marks a read as in progress before it calls [_read]. *)
Definition begin_read (s : Readable) : Readable :=
  {| objectMode := objectMode s; highWaterMark := highWaterMark s;
     reading := true; ended := ended s; buffer := buffer s;
     errors := errors s |}.

End Host.
Import Host.

(** ** Construction ([index.js], lines 3-17 and 37-39) *)

(** An adapter instance: the [Readable] it extends and its [_g] field. *)
Record StreamGenerators_obj : Type := mkStream {
  stream : Readable;
  _g : jsval
}.

(** [isAsyncIterator = obj => ...]. *)
Definition isAsyncIterator (obj : jsval) : completion bool :=
  if loose_eq_null obj then Normal false
  else
    match get obj Symbol_asyncIterator with
    | Throw e => Throw e
    | Normal m => Normal (String.eqb (typeof m) "function")
    end.

(** [function StreamGenerators(g)], called with [new]. *)
Definition StreamGenerators (g : jsval) : completion StreamGenerators_obj :=
  match isAsyncIterator g with
  | Throw e => Throw e
  | Normal ok =>
      if negb ok
      then Throw (TypeError "First argument must be a ES6 Async Generator")
      else Normal {| stream := Readable_call true; _g := g |}
  end.

(** [module.exports = list => new StreamGenerators(list)]. *)
Definition streamify (list : jsval) : completion StreamGenerators_obj :=
  StreamGenerators list.

(** ** The run-time state seen by [_read] *)

(** What becomes of a promise: fulfilled with a result, rejected with a
    reason, or never settled. *)
Inductive fate : Type :=
| Fulfils (r : jsval)
| Rejects (e : jsval)
| Pends.

(** What a call of a user function does: throw on the calling stack, or
    return a promise. *)
Inductive behaviour : Type :=
| Throws (e : jsval)
| Returns (p : fate).

(** The adapter instance, the user functions called so far (the wrapped
    sequence's cursor), the promises returned by [next()] whose [then]
    reaction has not run yet, and the rejections that no handler took. *)
Record world : Type := mkWorld {
  this : StreamGenerators_obj;
  calls : list fid;
  reactions : list fate;
  unhandled : list jsval
}.

Definition with_stream (s : Readable) (w : world) : world :=
  {| this := {| stream := s; _g := _g (this w) |};
     calls := calls w; reactions := reactions w; unhandled := unhandled w |}.

Definition with_reactions (rs : list fate) (w : world) : world :=
  {| this := this w; calls := calls w; reactions := rs;
     unhandled := unhandled w |}.

Definition add_unhandled (e : jsval) (w : world) : world :=
  {| this := this w; calls := calls w; reactions := reactions w;
     unhandled := unhandled w ++ [e] |}.

(** Statements that read and write the world and may throw. *)
Definition M (A : Type) : Type := world -> completion A * world.

Definition ret {A} (a : A) : M A := fun w => (Normal a, w).

Definition bind {A B} (m : M A) (k : A -> M B) : M B :=
  fun w =>
    match m w with
    | (Normal a, w') => k a w'
    | (Throw e, w') => (Throw e, w')
    end.

Definition lift {A} (c : completion A) : M A := fun w => (c, w).

(** [try { body } catch (e) { handler }]. *)
Definition try_catch {A} (body : M A) (handler : jsval -> M A) : M A :=
  fun w =>
    match body w with
    | (Normal a, w') => (Normal a, w')
    | (Throw e, w') => handler e w'
    end.

Declare Scope js_scope.
Delimit Scope js_scope with js.
Notation "x <- m ;; k" := (bind m (fun x => k))
  (at level 61, m at next level, right associativity) : js_scope.
Local Open Scope js_scope.

(** [this._g]. *)
Definition this_g : M jsval := fun w => (Normal (_g (this w)), w).

(** [this.push(chunk)]. *)
Definition this_push (chunk : jsval) : M bool :=
  fun w =>
    let (accepted, s) := push chunk (stream (this w)) in
    (Normal accepted, with_stream s w).

(** [this.emit(name, e)]. *)
Definition this_emit (name : string) (e : jsval) : M unit :=
  fun w => (Normal tt, with_stream (emit name e (stream (this w))) w).

Section Program.

(** The user code under test: what the [k]-th call (counting from 0) of
    function [f] does. *)
Variable code : fid -> nat -> behaviour.

(** [callee()]: calling a non-function throws a [TypeError]; a user
    function is entered, which advances its cursor. *)
Definition call (callee : jsval) : M fate :=
  fun w =>
    match callee with
    | JFunction f _ =>
        let w' := {| this := this w; calls := calls w ++ [f];
                     reactions := reactions w; unhandled := unhandled w |} in
        match code f (count_occ Nat.eq_dec (calls w) f) with
        | Throws e => (Throw e, w')
        | Returns p => (Normal p, w')
        end
    | _ => (Throw (TypeError "this._g.next is not a function"), w)
    end.

(** [p.then(onFulfilled)]: the reaction is queued until [p] settles.  The
    adapter only ever registers the arrow function of lines 25-31, embedded
    as [onFulfilled] below, and never an [onRejected] handler. *)
Definition then_ (p : fate) : M unit :=
  fun w => (Normal tt, with_reactions (reactions w ++ [p]) w).

(** The arrow function [r => { ... }] of lines 25-31. *)
Definition onFulfilled (r : jsval) : M unit :=
  done <- lift (get r (KStr "done")) ;;
  if strict_eq_false done then
    value <- lift (get r (KStr "value")) ;;
    _ <- this_push value ;;
    ret tt
  else
    _ <- this_push JNull ;;
    ret tt.

(** [StreamGenerators.prototype._read = function(size) { ... }]. *)
Definition _read (size : jsval) : M unit :=
  try_catch
    (g <- this_g ;;
     next <- lift (get g (KStr "next")) ;;
     p <- call next ;;
     then_ p)
    (fun e => this_emit "error" e).

(** ** The event loop *)

(** Modelled from the spec: the host's demand signal.  The stream
    machinery calls [_read] only when no read is in progress and
    end-of-stream has not been seen. *)
Definition demand (w : world) : world :=
  let s := stream (this w) in
  if ended s || reading s then w
  else snd (_read JUndefined (with_stream (begin_read s) w)).

Fixpoint remove_nth {A} (i : nat) (l : list A) : list A :=
  match i, l with
  | _, [] => []
  | O, _ :: t => t
  | S j, x :: t => x :: remove_nth j t
  end.

(** The [i]-th queued promise settles and its reaction runs as a job.  A
    rejection, or an exception thrown by [onFulfilled], rejects the promise
    returned by [then], which nobody handles. *)
Definition settle (i : nat) (w : world) : world :=
  match nth_error (reactions w) i with
  | None => w
  | Some Pends => w
  | Some (Rejects e) =>
      add_unhandled e (with_reactions (remove_nth i (reactions w)) w)
  | Some (Fulfils r) =>
      match onFulfilled r (with_reactions (remove_nth i (reactions w)) w) with
      | (Normal _, w') => w'
      | (Throw e, w') => add_unhandled e w'
      end
  end.

Inductive event : Type :=
| Demand
| Settle (i : nat).

Definition step (w : world) (ev : event) : world :=
  match ev with
  | Demand => demand w
  | Settle i => settle i w
  end.

Definition run (evs : list event) (w : world) : world :=
  fold_left step evs w.

(** A consumer that alternates: one demand signal, then the pull settles,
    [n] times over. *)
Fixpoint drive (n : nat) (w : world) : world :=
  match n with
  | O => w
  | S m => drive m (settle 0 (demand w))
  end.

End Program.

(** The world right after construction. *)
Definition start (obj : StreamGenerators_obj) : world :=
  {| this := obj; calls := []; reactions := []; unhandled := [] |}.

(** ** Wrapped sequences *)

(** [{ done: d, value: v }]. *)
Definition iter_result (d : bool) (v : jsval) : jsval :=
  JObject [(KStr "done", JBool d); (KStr "value", v)].

(** The [next] of a sequence that yields [items] and then does [after] on
    every later pull. *)
Definition yields_then (items : list jsval) (after : behaviour) (k : nat)
  : behaviour :=
  match nth_error items k with
  | Some v => Returns (Fulfils (iter_result false v))
  | None => after
  end.

(** A finite sequence: after its items it reports completion. *)
Definition finite (items : list jsval) : nat -> behaviour :=
  yields_then items (Returns (Fulfils (iter_result true JUndefined))).

(** An async generator object: iterable through the well-known lookup
    ([f_iter]) and itself an iterator ([f_next]). *)
Definition generator_object (f_iter f_next : fid) : jsval :=
  JObject [(Symbol_asyncIterator, JFunction f_iter []);
           (KStr "next", JFunction f_next [])].

(** An object that is only iterable: the lookup is its sole method. *)
Definition iterable_only (f_iter : fid) : jsval :=
  JObject [(Symbol_asyncIterator, JFunction f_iter [])].

(** ** The spec's vocabulary *)

(** The capability as the spec words it: an object (plain or callable) on
    which the well-known lookup yields a callable. *)
Definition async_iterable (v : jsval) : bool :=
  match v with
  | JObject props | JFunction _ props =>
      match assoc Symbol_asyncIterator props with
      | JFunction _ _ => true
      | _ => false
      end
  | _ => false
  end.

Definition InvalidArgument : jsval :=
  TypeError "First argument must be a ES6 Async Generator".

(** Pulls outstanding: promises from [next()] that have not settled. *)
Definition outstanding (w : world) : nat := List.length (reactions w).

(** Items the stream has emitted, whether it has ended, and its errors. *)
Definition emitted (w : world) : list jsval := buffer (stream (this w)).
Definition at_end (w : world) : bool := ended (stream (this w)).
Definition notified (w : world) : list jsval := errors (stream (this w)).

(** ** Worlds named in the proofs *)

(** The world after the call of a user function [f] has been recorded. *)
Definition entered (f : fid) (w : world) : world :=
  {| this := this w; calls := calls w ++ [f];
     reactions := reactions w; unhandled := unhandled w |}.

(** The chunk handed to [push] by the [then] callback. *)
Definition chunk_of (props : list (propkey * jsval)) : jsval :=
  match assoc (KStr "done") props with
  | JBool false => assoc (KStr "value") props
  | _ => JNull
  end.

(** What holds of every world reached through the host's demand signals:
    at most one promise is awaited, and while one is, a read is in
    progress on a stream that has neither ended nor failed; a stream that
    has reported an error still has its read in progress. *)
Definition disciplined (w : world) : Prop :=
  let s := stream (this w) in
  (reactions w = [] \/
   exists p, reactions w = [p] /\ reading s = true /\ ended s = false /\
             errors s = []) /\
  (errors s <> [] -> reading s = true).

(** A freshly built stream that has emitted [items] after [j] pulls and
    awaits the next demand signal. *)
Definition live (g : jsval) (f : fid) (items : list jsval) (j : nat)
    : world :=
  {| this := {| stream := {| objectMode := true; highWaterMark := 16;
                             reading := false; ended := false;
                             buffer := items; errors := [] |};
                _g := g |};
     calls := repeat f j; reactions := []; unhandled := [] |}.

(** The world in which the read issued from [live g f items j] is
    pending on promise [p]. *)
Definition pulling (g : jsval) (f : fid) (items : list jsval) (j : nat)
    (p : fate) : world :=
  {| this := {| stream := {| objectMode := true; highWaterMark := 16;
                             reading := true; ended := false;
                             buffer := items; errors := [] |};
                _g := g |};
     calls := repeat f (S j); reactions := [p]; unhandled := [] |}.

(** The stream after [items] and the end-of-stream marker. *)
Definition finished (g : jsval) (f : fid) (items : list jsval) (j : nat)
    : world :=
  {| this := {| stream := {| objectMode := true; highWaterMark := 16;
                             reading := false; ended := true;
                             buffer := items; errors := [] |};
                _g := g |};
     calls := repeat f j; reactions := []; unhandled := [] |}.

(** The stream stalled by a rejection: the read stays in progress. *)
Definition stalled (g : jsval) (f : fid) (items : list jsval) (j : nat)
    (e : jsval) : world :=
  {| this := {| stream := {| objectMode := true; highWaterMark := 16;
                             reading := true; ended := false;
                             buffer := items; errors := [] |};
                _g := g |};
     calls := repeat f j; reactions := []; unhandled := [e] |}.

(** The stream after a pull threw on the calling stack. *)
Definition failed (g : jsval) (f : fid) (items : list jsval) (j : nat)
    (e : jsval) : world :=
  {| this := {| stream := {| objectMode := true; highWaterMark := 16;
                             reading := true; ended := false;
                             buffer := items; errors := [e] |};
                _g := g |};
     calls := repeat f j; reactions := []; unhandled := [] |}.

(** A stream whose buffer is over its high-water mark, read once more. *)
Definition saturated : world :=
  {| this := {| stream := {| objectMode := true; highWaterMark := 1;
                             reading := false; ended := false;
                             buffer := [JNum 1; JNum 2; JNum 3];
                             errors := [] |};
                _g := generator_object 0 1 |};
     calls := [1; 1; 1]; reactions := []; unhandled := [] |}.

(** A sequence that yields 1 and 2 and whose third pull rejects. *)
Definition two_then_reject : fid -> nat -> behaviour :=
  fun _ => yields_then [JNum 1; JNum 2] (Returns (Rejects (JStr "E"))).

(** A composite item. *)
Definition record_item : jsval :=
  JObject [(KStr "guid", JStr "bf62800e"); (KStr "year", JNum 1986);
           (KStr "tags", JObject [(KStr "0", JStr "a")])].

(** ** The example generators ([examples/async-generator-stream.js],
    [examples/server-example.js]) *)

(** The line feed, ["\n"]. *)
Definition LF : string := String (ascii_of_nat 10) EmptyString.

(** [s.indexOf(needle)]: the first position of [needle], or -1. *)
Definition indexOf (s needle : string) : Z :=
  match index 0 needle s with
  | Some i => Z.of_nat i
  | None => (-1)%Z
  end.

(** How [slice] reads an index: a negative one counts from the end, and
    both kinds are clamped to the string. *)
Definition relative_index (len i : Z) : Z :=
  if (i <? 0)%Z then Z.max (len + i) 0 else Z.min i len.

(** [s.slice(a, b)], and [s.slice(a)] when [b] is [None]. *)
Definition slice (s : string) (a : Z) (b : option Z) : string :=
  let len := Z.of_nat (String.length s) in
  let from := relative_index len a in
  let to := match b with
            | Some e => relative_index len e
            | None => len
            end in
  substring (Z.to_nat from) (Z.to_nat (to - from)) s.

Lemma substring_length (s : string) (n m : nat) :
  String.length (substring n m s) <= String.length s - n.
Proof.
  revert n m. induction s as [| c s IH]; intros n m.
  - destruct n, m; simpl; lia.
  - destruct n as [| n]; simpl.
    + destruct m as [| m]; simpl; [lia |]. specialize (IH 0 m). lia.
    + apply IH.
Qed.

Lemma slice_tail_shorter (s : string) (i : Z) :
  (0 <= i)%Z -> s <> "" ->
  String.length (slice s (i + 1) None) < String.length s.
Proof.
  intros Hi Hs. unfold slice, relative_index.
  destruct (i + 1 <? 0)%Z eqn:E; [lia |].
  match goal with
  | |- String.length (substring ?n ?m s) < _ =>
      pose proof (substring_length s n m) as Hlen
  end.
  destruct s as [| c p]; [contradiction |].
  cbn [String.length] in *. lia.
Qed.

(** The [while] loop of [chunksToLines]: the lines yielded, and what is
    left in [previous] when no line feed remains. *)
Equations? eol_loop (previous : string) : list string * string
  by wf (String.length previous) lt :=
eol_loop previous with inspect (0 <=? indexOf previous LF)%Z => {
  | exist _ true found :=
      let eolIndex := indexOf previous LF in
      let line := slice previous 0 (Some (eolIndex + 1)%Z) in
      let (yielded, rest) := eol_loop (slice previous (eolIndex + 1) None) in
      (line :: yielded, rest)
  | exist _ false absent := ([], previous) }.
Proof.
  apply Z.leb_le in found.
  apply slice_tail_shorter; [exact found |].
  intros ->. revert found. unfold indexOf. simpl. lia.
Qed.

(** The [for await] loop of [chunksToLines] over the chunks still to
    come, followed by the final [if]. *)
Fixpoint chunk_loop (chunks : list string) (previous : string)
  : list string :=
  match chunks with
  | [] => if Nat.ltb 0 (String.length previous) then [previous] else []
  | chunk :: rest =>
      let (yielded, previous') := eol_loop (previous ++ chunk)%string in
      yielded ++ chunk_loop rest previous'
  end.

(** [async function* chunksToLines(chunks)]: the values it yields. *)
Definition chunksToLines (chunks : list string) : list string :=
  chunk_loop chunks "".

(** [counter++] on a number holding an integer: exact below 2^53, where
    adding one no longer changes a double. *)
Definition increment (counter : N) : N :=
  if (counter <? 2 ^ 53)%N then (counter + 1)%N else counter.

(** [String(n)] for an integer below 10^21: its decimal digits. *)
Definition Number_toString (n : N) : string :=
  NilZero.string_of_uint (N.to_uint n).

Fixpoint number_loop (lines : list string) (counter : N) : list string :=
  match lines with
  | [] => []
  | line :: rest =>
      (Number_toString counter ++ ": " ++ line)%string
        :: number_loop rest (increment counter)
  end.

(** [async function* numberOfLines(lines)]: the values it yields. *)
Definition numberOfLines (lines : list string) : list string :=
  number_loop lines 1%N.


(** Strings joined end to end. *)
Definition join (ls : list string) : string :=
  fold_right String.append "" ls.

(** A complete line: it has a line feed, and its first one is its last
    character. *)
Definition complete_line (y : string) : Prop :=
  (0 <= indexOf y LF)%Z /\
  indexOf y LF = (Z.of_nat (String.length y) - 1)%Z.

(** What the final [if] of [chunksToLines] yields. *)
Definition remainder (previous : string) : list string :=
  chunk_loop [] previous.

(** * Properties *)

(** Name the answer and the new stream of the [push] in the goal. *)
Ltac case_push :=
  match goal with
  | |- context [push ?c ?s] => destruct (push c s)
  end.

(** ** Construction *)

Lemma isAsyncIterator_spec (g : jsval) :
  isAsyncIterator g = Normal (async_iterable g).
Proof.
  destruct g as [| | b | n | s | props | f props]; try reflexivity;
    unfold isAsyncIterator; simpl;
    destruct (assoc Symbol_asyncIterator props); reflexivity.
Qed.

Lemma streamify_accepted (g : jsval) (obj : StreamGenerators_obj) :
  streamify g = Normal obj ->
  async_iterable g = true /\ obj = {| stream := Readable_call true; _g := g |}.
Proof.
  unfold streamify, StreamGenerators.
  rewrite isAsyncIterator_spec.
  destruct (async_iterable g); intros H; inversion H; auto.
Qed.

(** C3: an argument that is null, undefined, not an object, or an object
    without a callable [Symbol.asyncIterator] makes construction throw the
    InvalidArgument [TypeError]; every other argument yields the stream
    object bound to it.  Construction is a pure function of its argument:
    it cannot reach the wrapped sequence, so no pull precedes the throw. *)
Theorem C3_construction_validates (g : jsval) :
  streamify g =
    if async_iterable g
    then Normal {| stream := Readable_call true; _g := g |}
    else Throw InvalidArgument.
Proof.
  unfold streamify, StreamGenerators.
  rewrite isAsyncIterator_spec.
  destruct (async_iterable g); reflexivity.
Qed.

Lemma streamify_rejects_primitives :
  streamify JNull = Throw InvalidArgument /\
  streamify JUndefined = Throw InvalidArgument /\
  (forall b, streamify (JBool b) = Throw InvalidArgument) /\
  (forall n, streamify (JNum n) = Throw InvalidArgument) /\
  (forall s, streamify (JStr s) = Throw InvalidArgument).
Proof. repeat split. Qed.

(** A plain synchronous iterable has [Symbol.iterator] only. *)
Lemma streamify_rejects_sync_iterable (f : fid) :
  streamify (JObject [(KSym "iterator", JFunction f [])]) = Throw InvalidArgument.
Proof. reflexivity. Qed.

(** ** One read, one settlement *)

Section Steps.

Variable code : fid -> nat -> behaviour.

(** [_read] never lets an exception escape, and its effect is one of
    three: the pull returned a promise, the pull threw, or there was
    nothing to call. *)
Lemma _read_cases (size : jsval) (w : world) :
  exists w', _read code size w = (Normal tt, w') /\
    match get (_g (this w)) (KStr "next") with
    | Normal (JFunction f _) =>
        match code f (count_occ Nat.eq_dec (calls w) f) with
        | Returns p =>
            w' = with_reactions (reactions w ++ [p]) (entered f w)
        | Throws e =>
            w' = with_stream (emit "error" e (stream (this w))) (entered f w)
        end
    | Normal _ =>
        w' = with_stream
               (emit "error" (TypeError "this._g.next is not a function")
                  (stream (this w))) w
    | Throw e => w' = with_stream (emit "error" e (stream (this w))) w
    end.
Proof.
  unfold _read, try_catch, bind, this_g, lift, call, then_, this_emit.
  destruct (get (_g (this w)) (KStr "next")) as [v | e]; simpl.
  - destruct v; simpl; try (eexists; split; reflexivity).
    destruct (code f (count_occ Nat.eq_dec (calls w) f)); simpl;
      eexists; split; reflexivity.
  - eexists; split; reflexivity.
Qed.

Lemma onFulfilled_object (props : list (propkey * jsval)) (w : world) :
  onFulfilled (JObject props) w =
    (Normal tt, with_stream (snd (push (chunk_of props) (stream (this w)))) w).
Proof.
  unfold onFulfilled, chunk_of, bind, lift, this_push, ret.
  cbn [get].
  destruct (assoc (KStr "done") props) as [| | [|] | | | |];
    cbn [strict_eq_false get]; case_push; reflexivity.
Qed.

End Steps.

(** C10: for a result object [r] (plain or callable), the [then] callback
    pushes [r.value] exactly when [r.done] is the boolean [false]; for any
    other [r.done] (true, missing, undefined, 0, the empty string, null,
    an object) it pushes the end-of-stream marker and [r.value] is
    dropped. *)
Theorem C10_done_strictly_false (props : list (propkey * jsval)) (f : fid)
    (w : world) :
  let chunk := match assoc (KStr "done") props with
               | JBool false => assoc (KStr "value") props
               | _ => JNull
               end in
  let pushed := with_stream (snd (push chunk (stream (this w)))) w in
  onFulfilled (JObject props) w = (Normal tt, pushed) /\
  onFulfilled (JFunction f props) w = (Normal tt, pushed).
Proof.
  unfold onFulfilled, bind, lift, this_push, ret.
  cbn [get].
  destruct (assoc (KStr "done") props) as [| | [|] | | | |];
    cbn [strict_eq_false get]; case_push; split; reflexivity.
Qed.

Example done_zero_ends (v : jsval) (w : world) :
  onFulfilled (JObject [(KStr "done", JNum 0); (KStr "value", v)]) w =
    (Normal tt, with_stream (snd (push JNull (stream (this w)))) w).
Proof. apply onFulfilled_object. Qed.

Example done_missing_ends (v : jsval) (w : world) :
  onFulfilled (JObject [(KStr "value", v)]) w =
    (Normal tt, with_stream (snd (push JNull (stream (this w)))) w).
Proof. apply onFulfilled_object. Qed.

(** ** The adapter keeps no state of its own *)

Section Reads.

Variable code : fid -> nat -> behaviour.

(** Whatever the callback is given, and whatever [push] answers, it pulls
    nothing and queues nothing. *)
Lemma onFulfilled_no_pull (r : jsval) (w : world) :
  calls (snd (onFulfilled r w)) = calls w /\
  reactions (snd (onFulfilled r w)) = reactions w.
Proof.
  destruct r as [| | b | n | s | props | f props];
    try (split; reflexivity);
    unfold onFulfilled, bind, lift, this_push, ret; cbn [get];
    destruct (strict_eq_false _); cbn [get]; case_push; split; reflexivity.
Qed.

Lemma _read_calls_own_next (size : jsval) (w : world) (f : fid)
    (ps : list (propkey * jsval)) :
  get (_g (this w)) (KStr "next") = Normal (JFunction f ps) ->
  calls (snd (_read code size w)) = calls w ++ [f].
Proof.
  intros Hnext.
  destruct (_read_cases code size w) as [w' [Hrun Hw']].
  rewrite Hrun, Hnext in *. simpl.
  destruct (code f (count_occ Nat.eq_dec (calls w) f)); subst w'; reflexivity.
Qed.

Lemma _read_without_next (size : jsval) (w : world) :
  (forall f ps, get (_g (this w)) (KStr "next") <> Normal (JFunction f ps)) ->
  exists e,
    snd (_read code size w) = with_stream (emit "error" e (stream (this w))) w.
Proof.
  intros Hnone.
  destruct (_read_cases code size w) as [w' [Hrun Hw']].
  rewrite Hrun. simpl.
  destruct (get (_g (this w)) (KStr "next")) as [v | e].
  - destruct v; try (eexists; eassumption).
    exfalso. eapply Hnone. reflexivity.
  - eexists; eassumption.
Qed.

(** Two reads in a row, with nothing settled in between, leave two pulls
    outstanding: the adapter has no in-flight flag. *)
Lemma two_reads_two_outstanding (size : jsval) (w : world) (f : fid)
    (ps : list (propkey * jsval)) (p q : fate) :
  get (_g (this w)) (KStr "next") = Normal (JFunction f ps) ->
  code f (count_occ Nat.eq_dec (calls w) f) = Returns p ->
  code f (S (count_occ Nat.eq_dec (calls w) f)) = Returns q ->
  reactions (snd (_read code size (snd (_read code size w)))) =
    reactions w ++ [p; q].
Proof.
  intros Hnext Hp Hq.
  destruct (_read_cases code size w) as [w1 [Hrun1 Hw1]].
  rewrite Hnext, Hp in Hw1. rewrite Hrun1. cbn [snd].
  destruct (_read_cases code size w1) as [w2 [Hrun2 Hw2]].
  rewrite Hrun2. cbn [snd]. subst w1.
  cbn [with_reactions entered this _g calls reactions] in Hw2.
  rewrite Hnext in Hw2.
  rewrite count_occ_app in Hw2. cbn [count_occ] in Hw2.
  destruct (Nat.eq_dec f f) as [_ | Hne]; [| contradiction].
  rewrite Nat.add_1_r, Hq in Hw2. subst w2. simpl.
  rewrite <- app_assoc. reflexivity.
Qed.

End Reads.

(** C9: every call of [_read] on a wrapped sequence calls its [next]
    exactly once, whatever the state of the stream (buffer length,
    high-water mark, flags); and the [then] callback, which makes the
    emission call, drops the answer of [push]: it pulls nothing and queues
    nothing on any input. *)
Theorem C9_one_pull_per_read (code : fid -> nat -> behaviour) (size : jsval)
    (w : world) (f : fid) (ps : list (propkey * jsval)) :
  get (_g (this w)) (KStr "next") = Normal (JFunction f ps) ->
  calls (snd (_read code size w)) = calls w ++ [f] /\
  forall r w0,
    calls (snd (onFulfilled r w0)) = calls w0 /\
    reactions (snd (onFulfilled r w0)) = reactions w0.
Proof.
  intros Hnext. split.
  - eapply _read_calls_own_next; eassumption.
  - intros r w0. apply onFulfilled_no_pull.
Qed.

Lemma C9_one_pull_per_read_witness :
  calls (snd (_read (fun _ => finite [JNum 1; JNum 2; JNum 3; JNum 4])
                JUndefined saturated)) = [1; 1; 1; 1] /\
  forall r w0,
    calls (snd (onFulfilled r w0)) = calls w0 /\
    reactions (snd (onFulfilled r w0)) = reactions w0.
Proof.
  apply (C9_one_pull_per_read
           (fun _ => finite [JNum 1; JNum 2; JNum 3; JNum 4])
           JUndefined saturated 1 []).
  reflexivity.
Defined.

(** C6 (as the code has it): [_read] never performs the well-known lookup;
    it calls the [next] found on the wrapped object itself.  For an
    accepted argument whose own [next] is a function, that function is the
    one called; for an accepted argument with no callable [next] of its
    own, nothing is called and nothing is queued or emitted: the read ends
    in an ["error"] notification. *)
Theorem C6_pull_uses_own_next (code : fid -> nat -> behaviour) (size : jsval)
    (w : world) :
  async_iterable (_g (this w)) = true ->
  let w' := snd (_read code size w) in
  match get (_g (this w)) (KStr "next") with
  | Normal (JFunction f _) => calls w' = calls w ++ [f]
  | _ =>
      calls w' = calls w /\ reactions w' = reactions w /\
      emitted w' = emitted w /\ exists e, notified w' = notified w ++ [e]
  end.
Proof.
  intros _ w'. subst w'.
  destruct (_read_cases code size w) as [w1 [Hrun Hw1]].
  rewrite Hrun. cbn [snd].
  destruct (get (_g (this w)) (KStr "next")) as [v | e].
  - destruct v;
      try (subst w1; repeat split; eexists; reflexivity).
    destruct (code f (count_occ Nat.eq_dec (calls w) f)); subst w1;
      reflexivity.
  - subst w1; repeat split; eexists; reflexivity.
Qed.

Lemma C6_pull_uses_own_next_witness :
  let w' := snd (_read (fun _ => finite [JNum 1]) JUndefined
                   (start {| stream := Readable_call true;
                             _g := generator_object 0 1 |})) in
  calls w' = [] ++ [1].
Proof.
  apply (C6_pull_uses_own_next (fun _ => finite [JNum 1]) JUndefined
           (start {| stream := Readable_call true;
                     _g := generator_object 0 1 |})).
  reflexivity.
Defined.

(** C6 (as the spec has it) fails: an async-iterable whose iterator is only
    reachable through [Symbol.asyncIterator] passes construction, yet
    driving it calls no user function, emits no item, and reports that
    [this._g.next] is not a function. *)
Lemma C6_counterexample :
  streamify (iterable_only 0) =
    Normal {| stream := Readable_call true; _g := iterable_only 0 |} /\
  let w := drive (fun _ => finite [JNum 1]) 3
             (start {| stream := Readable_call true;
                       _g := iterable_only 0 |}) in
  calls w = [] /\ emitted w = [] /\ at_end w = false /\
  notified w = [TypeError "this._g.next is not a function"].
Proof. repeat split. Qed.

(** ** The host's discipline *)

Section Discipline.

Variable code : fid -> nat -> behaviour.

Lemma disciplined_start (g : jsval) :
  disciplined (start {| stream := Readable_call true; _g := g |}).
Proof.
  split; [left; reflexivity | intros H; exfalso; apply H; reflexivity].
Qed.

Lemma push_live (c : jsval) (s : Readable) :
  ended s = false -> errors s = [] ->
  errors (snd (push c s)) = [].
Proof.
  intros He Herr. unfold push. rewrite He.
  destruct c; simpl; assumption.
Qed.

(** What the job run by [settle] leaves behind. *)
Lemma onFulfilled_world (r : jsval) (w : world) :
  (exists e, onFulfilled r w = (Throw e, w)) \/
  (exists c,
     onFulfilled r w =
       (Normal tt, with_stream (snd (push c (stream (this w)))) w)).
Proof.
  destruct r as [| | b | n | s | props | f props];
    try (left; eexists; reflexivity);
    right;
    unfold onFulfilled, bind, lift, this_push, ret; cbn [get];
    destruct (strict_eq_false _); cbn [get];
    match goal with
    | |- context [push ?c ?s] =>
        exists c; destruct (push c s); reflexivity
    end.
Qed.

Lemma disciplined_demand (w : world) :
  disciplined w -> disciplined (demand code w).
Proof.
  intros Hw. unfold demand.
  destruct (ended (stream (this w)) || reading (stream (this w))) eqn:Hguard;
    [exact Hw |].
  apply orb_false_elim in Hguard as [Hend Hrd].
  destruct Hw as [Hq Herr].
  assert (Hnil : reactions w = []).
  { destruct Hq as [H | [p [_ [H _]]]]; [exact H | congruence]. }
  assert (Hnoerr : errors (stream (this w)) = []).
  { destruct (errors (stream (this w))) eqn:E; [reflexivity |].
    rewrite Herr in Hrd by discriminate. discriminate. }
  set (w0 := with_stream (begin_read (stream (this w))) w).
  destruct (_read_cases code JUndefined w0) as [w1 [Hrun Hw1]].
  rewrite Hrun. cbn [snd].
  assert (Hfail : forall e,
    disciplined (with_stream (emit "error" e (stream (this w0))) w0)).
  { intros e. split; [left; exact Hnil | intros _; reflexivity]. }
  assert (Hfail' : forall e f,
    disciplined
      (with_stream (emit "error" e (stream (this w0))) (entered f w0))).
  { intros e f. split; [left; exact Hnil | intros _; reflexivity]. }
  destruct (get (_g (this w0)) (KStr "next")) as [v | e].
  - destruct v; try (subst w1; apply Hfail).
    destruct (code f (count_occ Nat.eq_dec (calls w0) f)) as [e | p];
      subst w1; [apply Hfail' |].
    split.
    + right. exists p. cbn. rewrite Hnil. repeat split; assumption.
    + cbn. intros H. reflexivity.
  - subst w1. apply Hfail.
Qed.

Lemma disciplined_settle (i : nat) (w : world) :
  disciplined w -> disciplined (settle i w).
Proof.
  intros [Hq Herr]. unfold settle.
  destruct Hq as [Hnil | [p [Hone [Hrd [Hend Hnoerr]]]]].
  - rewrite Hnil. destruct i; split; auto.
  - rewrite Hone.
    destruct i as [| j]; [| destruct j; split; eauto 10].
    cbn [nth_error remove_nth].
    destruct p as [r | e |].
    + set (w0 := with_reactions [] w).
      destruct (onFulfilled_world r w0) as [[e He] | [c Hc]].
      * rewrite He. split; [left; reflexivity |].
        cbn. rewrite Hnoerr. intros H. exfalso. apply H. reflexivity.
      * rewrite Hc. split; [left; reflexivity |].
        cbn [with_stream this stream].
        rewrite push_live; [| exact Hend | exact Hnoerr].
        intros H. exfalso. apply H. reflexivity.
    + split; [left; reflexivity |].
      cbn. rewrite Hnoerr. intros H. exfalso. apply H. reflexivity.
    + split; eauto 10.
Qed.

Lemma disciplined_run (evs : list event) (w : world) :
  disciplined w -> disciplined (run code evs w).
Proof.
  revert w. induction evs as [| ev evs IH]; intros w Hw; [exact Hw |].
  cbn [run fold_left]. apply IH.
  destruct ev; [apply disciplined_demand | apply disciplined_settle];
    exact Hw.
Qed.

Lemma disciplined_outstanding (w : world) :
  disciplined w -> outstanding w <= 1.
Proof.
  intros [[Hnil | [p [Hone _]]] _]; unfold outstanding;
    [rewrite Hnil | rewrite Hone]; simpl; lia.
Qed.

(** Once a disciplined stream has ended or reported an error, the host's
    events change nothing. *)
Lemma terminal_step (ev : event) (w : world) :
  disciplined w ->
  at_end w = true \/ notified w <> [] ->
  step code w ev = w.
Proof.
  intros [Hq Herr] Hterm.
  assert (Hnil : reactions w = []).
  { destruct Hq as [H | [p [_ [_ [Hend Hnoerr]]]]]; [exact H |].
    destruct Hterm as [H | H]; unfold at_end, notified in H;
      [congruence | contradiction]. }
  assert (Hguard : ended (stream (this w)) || reading (stream (this w)) = true).
  { destruct Hterm as [H | H]; unfold at_end, notified in H.
    - rewrite H. reflexivity.
    - rewrite (Herr H). apply orb_true_r. }
  destruct ev as [| i]; cbn [step].
  - unfold demand. rewrite Hguard. reflexivity.
  - unfold settle. rewrite Hnil. destruct i; reflexivity.
Qed.

Lemma terminal_run (evs : list event) (w : world) :
  disciplined w ->
  at_end w = true \/ notified w <> [] ->
  run code evs w = w.
Proof.
  intros Hw Hterm. induction evs as [| ev evs IH]; [reflexivity |].
  cbn [run fold_left]. rewrite terminal_step by assumption. exact IH.
Qed.

End Discipline.

(** C5: when demand signals come through the host, which waits for the
    answer to one read before it issues the next, at most one pull is
    outstanding in every reachable world, and while one is outstanding a
    further demand signal issues no pull at all. *)
Theorem C5_single_outstanding_pull (code : fid -> nat -> behaviour)
    (g : jsval) (obj : StreamGenerators_obj) (evs : list event) :
  streamify g = Normal obj ->
  let w := run code evs (start obj) in
  outstanding w <= 1 /\ (outstanding w = 1 -> demand code w = w).
Proof.
  intros Hobj w.
  apply streamify_accepted in Hobj as [_ ->].
  assert (Hw : disciplined w)
    by (apply disciplined_run, disciplined_start).
  split; [apply disciplined_outstanding; exact Hw |].
  intros Hone. destruct Hw as [[Hnil | [p [_ [Hrd _]]]] _].
  - unfold outstanding in Hone. rewrite Hnil in Hone. discriminate.
  - unfold demand. rewrite Hrd, orb_true_r. reflexivity.
Qed.

Lemma C5_single_outstanding_pull_witness :
  let code := fun _ : fid => finite [JNum 1; JNum 2] in
  let w := run code [Demand; Demand; Settle 0; Demand; Demand]
             (start {| stream := Readable_call true;
                       _g := generator_object 0 1 |}) in
  outstanding w <= 1 /\ (outstanding w = 1 -> demand code w = w).
Proof.
  intros code.
  apply (C5_single_outstanding_pull code (generator_object 0 1)
           {| stream := Readable_call true; _g := generator_object 0 1 |}
           [Demand; Demand; Settle 0; Demand; Demand]).
  reflexivity.
Defined.

(** C4 (as the code has it): the terminal states are absorbing for the
    host's demand signals.  Once the stream has ended or has notified an
    error, no later sequence of host events changes the world: no pull,
    no emission.  It is the host that stops calling [_read]. *)
Theorem C4_terminal_absorbing_under_host (code : fid -> nat -> behaviour)
    (g : jsval) (obj : StreamGenerators_obj) (evs more : list event) :
  streamify g = Normal obj ->
  let w := run code evs (start obj) in
  at_end w = true \/ notified w <> [] ->
  run code more w = w.
Proof.
  intros Hobj w Hterm.
  apply streamify_accepted in Hobj as [_ ->].
  apply terminal_run; [| exact Hterm].
  apply disciplined_run, disciplined_start.
Qed.

Lemma C4_terminal_absorbing_under_host_witness :
  let code := fun _ : fid => finite [] in
  let w := run code [Demand; Settle 0]
             (start {| stream := Readable_call true;
                       _g := generator_object 0 1 |}) in
  run code [Demand; Settle 0; Demand] w = w.
Proof.
  intros code.
  apply (C4_terminal_absorbing_under_host code (generator_object 0 1)
           {| stream := Readable_call true; _g := generator_object 0 1 |}
           [Demand; Settle 0] [Demand; Settle 0; Demand]).
  - reflexivity.
  - left. reflexivity.
Defined.

(** C4 (as the spec has it) fails: after an empty sequence has reported
    completion and the stream has ended, one more call of [_read] calls
    [next] again; and after a pull has thrown and the error has been
    notified, one more call of [_read] calls [next] again too. *)
Lemma C4_counterexample :
  (let code := fun _ : fid => finite [] in
   let w := run code [Demand; Settle 0]
              (start {| stream := Readable_call true;
                        _g := generator_object 0 1 |}) in
   at_end w = true /\ calls w = [1] /\
   calls (snd (_read code JUndefined w)) = [1; 1]) /\
  (let code := fun (_ : fid) (_ : nat) => Throws (JStr "E") in
   let w := run code [Demand]
              (start {| stream := Readable_call true;
                        _g := generator_object 0 1 |}) in
   notified w = [JStr "E"] /\ calls w = [1] /\
   calls (snd (_read code JUndefined w)) = [1; 1]).
Proof. repeat split. Qed.

(** ** Driving a sequence *)

Section Driving.

Variable code : fid -> nat -> behaviour.
Variable g : jsval.
Variable f : fid.
Variable ps : list (propkey * jsval).
Hypothesis own_next : get g (KStr "next") = Normal (JFunction f ps).

Lemma count_own (j : nat) : count_occ Nat.eq_dec (repeat f j) f = j.
Proof. apply count_occ_repeat_eq. reflexivity. Qed.

Lemma repeat_snoc (j : nat) : repeat f j ++ [f] = repeat f (S j).
Proof.
  induction j as [| j IH]; [reflexivity |].
  cbn [repeat app]. rewrite IH. reflexivity.
Qed.

Lemma demand_live (items : list jsval) (j : nat) (p : fate) :
  code f j = Returns p ->
  demand code (live g f items j) = pulling g f items j p.
Proof.
  intros Hcode. unfold demand. cbn [live this stream ended reading orb].
  destruct (_read_cases code JUndefined
              (with_stream
                 (begin_read
                    {| objectMode := true; highWaterMark := 16;
                       reading := false; ended := false;
                       buffer := items; errors := [] |}) (live g f items j)))
    as [w1 [Hrun Hw1]].
  rewrite Hrun. cbn [snd].
  cbn [with_stream live this _g calls] in Hw1.
  rewrite own_next, count_own, Hcode in Hw1. subst w1.
  unfold pulling, with_reactions, entered, with_stream, begin_read.
  cbn. rewrite repeat_snoc. reflexivity.
Qed.

(** One round on an item that is not the end-of-stream marker. *)
Lemma round_item (items : list jsval) (j : nat) (v : jsval) :
  code f j = Returns (Fulfils (iter_result false v)) ->
  v <> JNull ->
  settle 0 (demand code (live g f items j)) = live g f (items ++ [v]) (S j).
Proof.
  intros Hcode Hv. rewrite (demand_live _ _ _ Hcode).
  unfold settle. cbn [pulling reactions nth_error remove_nth].
  unfold iter_result. rewrite onFulfilled_object.
  unfold chunk_of. cbn [assoc propkey_eqb String.eqb Ascii.eqb Bool.eqb].
  destruct v; try contradiction; reflexivity.
Qed.

(** One round on a result whose [done] is not [false]. *)
Lemma round_done (items : list jsval) (j : nat) (v : jsval) :
  code f j = Returns (Fulfils (iter_result true v)) ->
  settle 0 (demand code (live g f items j)) = finished g f items (S j).
Proof.
  intros Hcode. rewrite (demand_live _ _ _ Hcode). reflexivity.
Qed.

(** One round on an item that is [null]: the stream ends. *)
Lemma round_null (items : list jsval) (j : nat) :
  code f j = Returns (Fulfils (iter_result false JNull)) ->
  settle 0 (demand code (live g f items j)) = finished g f items (S j).
Proof.
  intros Hcode. rewrite (demand_live _ _ _ Hcode). reflexivity.
Qed.

Lemma round_reject (items : list jsval) (j : nat) (e : jsval) :
  code f j = Returns (Rejects e) ->
  settle 0 (demand code (live g f items j)) = stalled g f items (S j) e.
Proof.
  intros Hcode. rewrite (demand_live _ _ _ Hcode). reflexivity.
Qed.

Lemma round_throw (items : list jsval) (j : nat) (e : jsval) :
  code f j = Throws e ->
  settle 0 (demand code (live g f items j)) = failed g f items (S j) e.
Proof.
  intros Hcode. unfold demand. cbn [live this stream ended reading orb].
  destruct (_read_cases code JUndefined
              (with_stream
                 (begin_read
                    {| objectMode := true; highWaterMark := 16;
                       reading := false; ended := false;
                       buffer := items; errors := [] |}) (live g f items j)))
    as [w1 [Hrun Hw1]].
  rewrite Hrun. cbn [snd].
  cbn [with_stream live this _g calls] in Hw1.
  rewrite own_next, count_own, Hcode in Hw1. subst w1.
  unfold failed, settle, entered, with_stream, begin_read, emit.
  cbn. rewrite repeat_snoc. reflexivity.
Qed.

(** No round moves a stream that has ended, stalled or failed. *)
Lemma drive_finished (n : nat) (items : list jsval) (j : nat) :
  drive code n (finished g f items j) = finished g f items j.
Proof. induction n as [| n IH]; [reflexivity | exact IH]. Qed.

Lemma drive_stalled (n : nat) (items : list jsval) (j : nat) (e : jsval) :
  drive code n (stalled g f items j e) = stalled g f items j e.
Proof. induction n as [| n IH]; [reflexivity | exact IH]. Qed.

Lemma drive_failed (n : nat) (items : list jsval) (j : nat) (e : jsval) :
  drive code n (failed g f items j e) = failed g f items j e.
Proof. induction n as [| n IH]; [reflexivity | exact IH]. Qed.

Lemma drive_add (a b : nat) (w : world) :
  drive code (a + b) w = drive code b (drive code a w).
Proof.
  revert w. induction a as [| a IH]; intros w; [reflexivity |].
  cbn [Nat.add drive]. apply IH.
Qed.

(** As many rounds as there are items, none of them [null], emit the
    items in order whatever the sequence does afterwards. *)
Lemma drive_items (after : behaviour) (items pre : list jsval) (j : nat) :
  (forall k, code f (j + k) = yields_then items after k) ->
  Forall (fun v => v <> JNull) items ->
  drive code (List.length items) (live g f pre j) =
    live g f (pre ++ items) (j + List.length items).
Proof.
  revert pre j.
  induction items as [| v items IH]; intros pre j Hcode Hnn.
  - cbn [List.length drive]. rewrite app_nil_r, Nat.add_0_r. reflexivity.
  - inversion Hnn as [| v' items' Hv Hrest]; subst.
    cbn [List.length drive].
    rewrite (round_item pre j v).
    + rewrite IH.
      * rewrite <- app_assoc, Nat.add_succ_r. reflexivity.
      * intros k. replace (S j + k) with (j + S k) by lia.
        rewrite Hcode. reflexivity.
      * exact Hrest.
    + specialize (Hcode 0). rewrite Nat.add_0_r in Hcode. exact Hcode.
    + exact Hv.
Qed.

End Driving.

(** ** Whole runs *)

Section Runs.

Variable code : fid -> nat -> behaviour.
Variable g : jsval.
Variable f : fid.
Variable ps : list (propkey * jsval).
Hypothesis own_next : get g (KStr "next") = Normal (JFunction f ps).

Lemma start_live :
  start {| stream := Readable_call true; _g := g |} = live g f [] 0.
Proof. reflexivity. Qed.

Lemma after_items (after : behaviour) (items : list jsval) :
  (forall k, code f k = yields_then items after k) ->
  code f (List.length items) = after.
Proof.
  intros Hcode. rewrite Hcode. unfold yields_then.
  rewrite (proj2 (nth_error_None items (List.length items))) by lia.
  reflexivity.
Qed.

(** A finite sequence of non-null items, driven for more rounds than it
    has items. *)
Lemma drive_finite (items : list jsval) (n : nat) :
  (forall k, code f k = finite items k) ->
  Forall (fun v => v <> JNull) items ->
  drive code (S (List.length items) + n) (live g f [] 0) =
    finished g f items (S (List.length items)).
Proof.
  intros Hcode Hnn.
  replace (S (List.length items) + n) with (List.length items + S n) by lia.
  rewrite drive_add.
  rewrite (drive_items code g f ps own_next
             (Returns (Fulfils (iter_result true JUndefined))) items [] 0
             Hcode Hnn).
  cbn [app Nat.add drive].
  rewrite (round_done code g f ps own_next items _ JUndefined).
  - apply drive_finished.
  - apply (after_items _ items Hcode).
Qed.

(** A sequence whose pull after [items] throws on the calling stack: the
    items are emitted, then the error is notified, and the stream neither
    emits nor ends afterwards. *)
Lemma drive_throwing (items : list jsval) (e : jsval) (n : nat) :
  (forall k, code f k = yields_then items (Throws e) k) ->
  Forall (fun v => v <> JNull) items ->
  drive code (S (List.length items) + n) (live g f [] 0) =
    failed g f items (S (List.length items)) e.
Proof.
  intros Hcode Hnn.
  replace (S (List.length items) + n) with (List.length items + S n) by lia.
  rewrite drive_add.
  rewrite (drive_items code g f ps own_next (Throws e) items [] 0 Hcode Hnn).
  cbn [app Nat.add drive].
  rewrite (round_throw code g f ps own_next items _ e).
  - apply drive_failed.
  - apply (after_items _ items Hcode).
Qed.

(** A sequence whose pull after [items] returns a promise that rejects:
    the items are emitted, then nothing: no error is notified, the stream
    does not end, and the rejection is left without a handler. *)
Lemma drive_rejecting (items : list jsval) (e : jsval) (n : nat) :
  (forall k, code f k = yields_then items (Returns (Rejects e)) k) ->
  Forall (fun v => v <> JNull) items ->
  drive code (S (List.length items) + n) (live g f [] 0) =
    stalled g f items (S (List.length items)) e.
Proof.
  intros Hcode Hnn.
  replace (S (List.length items) + n) with (List.length items + S n) by lia.
  rewrite drive_add.
  rewrite (drive_items code g f ps own_next (Returns (Rejects e)) items [] 0
             Hcode Hnn).
  cbn [app Nat.add drive].
  rewrite (round_reject code g f ps own_next items _ e).
  - apply drive_stalled.
  - apply (after_items _ items Hcode).
Qed.

End Runs.

(** The synchronous half of error propagation: the items, then one error
    notification carrying the thrown value, no end-of-stream marker. *)
Lemma sync_throw_signalled (code : fid -> nat -> behaviour) (g : jsval)
    (obj : StreamGenerators_obj) (f : fid) (ps : list (propkey * jsval))
    (items : list jsval) (e : jsval) (n : nat) :
  streamify g = Normal obj ->
  get g (KStr "next") = Normal (JFunction f ps) ->
  (forall k, code f k = yields_then items (Throws e) k) ->
  Forall (fun v => v <> JNull) items ->
  let w := drive code (S (List.length items) + n) (start obj) in
  emitted w = items /\ notified w = [e] /\ at_end w = false.
Proof.
  intros Hobj Hnext Hcode Hnn w. subst w.
  apply streamify_accepted in Hobj as [_ ->].
  rewrite (start_live g f).
  rewrite (drive_throwing code g f ps Hnext items e n Hcode Hnn).
  repeat split.
Qed.

(** C1 at its failing input: a sequence that yields 1 and 2 and whose
    third pull rejects with E.  However long the stream is driven, it
    emits 1 and 2 and then stalls: no error is notified, no end-of-stream
    marker is emitted, the read stays in progress, and E sits in a
    rejected promise that nobody handles. *)
Theorem C1_rejection_not_signalled (n : nat) :
  let w := drive two_then_reject (3 + n)
             (start {| stream := Readable_call true;
                       _g := generator_object 0 1 |}) in
  emitted w = [JNum 1; JNum 2] /\ notified w = [] /\ at_end w = false /\
  reading (stream (this w)) = true /\ unhandled w = [JStr "E"].
Proof.
  intros w. subst w.
  rewrite (start_live (generator_object 0 1) 1).
  change (3 + n) with (S (List.length [JNum 1; JNum 2]) + n).
  rewrite (drive_rejecting two_then_reject (generator_object 0 1) 1 []
             eq_refl [JNum 1; JNum 2] (JStr "E") n).
  - repeat split.
  - intros k. reflexivity.
  - repeat constructor; discriminate.
Qed.

(** C2 (as the code has it): a finite sequence of items none of which is
    [null], driven for more rounds than it has items, emits exactly those
    items in order and then the end-of-stream marker, with one pull per
    item and one for the completion, no error and no unhandled
    rejection. *)
Theorem C2_order_preserved (code : fid -> nat -> behaviour) (g : jsval)
    (obj : StreamGenerators_obj) (f : fid) (ps : list (propkey * jsval))
    (items : list jsval) (n : nat) :
  streamify g = Normal obj ->
  get g (KStr "next") = Normal (JFunction f ps) ->
  (forall k, code f k = finite items k) ->
  Forall (fun v => v <> JNull) items ->
  let w := drive code (S (List.length items) + n) (start obj) in
  emitted w = items /\ at_end w = true /\ notified w = [] /\
  unhandled w = [] /\ calls w = repeat f (S (List.length items)).
Proof.
  intros Hobj Hnext Hcode Hnn w. subst w.
  apply streamify_accepted in Hobj as [_ ->].
  rewrite (start_live g f).
  rewrite (drive_finite code g f ps Hnext items n Hcode Hnn).
  repeat split.
Qed.

Lemma C2_order_preserved_witness :
  let items := [JNum 1; JStr "two"; JObject [(KStr "k", JBool true)]] in
  let w := drive (fun _ => finite items) (S (List.length items) + 2)
             (start {| stream := Readable_call true;
                       _g := generator_object 0 1 |}) in
  emitted w = items /\ at_end w = true /\ notified w = [] /\
  unhandled w = [] /\ calls w = repeat 1 (S (List.length items)).
Proof.
  intros items.
  apply (C2_order_preserved (fun _ => finite items) (generator_object 0 1)
           {| stream := Readable_call true; _g := generator_object 0 1 |}
           1 [] items 2).
  - reflexivity.
  - reflexivity.
  - intros k. reflexivity.
  - repeat constructor; discriminate.
Defined.

(** C2 (as the spec has it) fails: for the finite sequence that yields
    [null] and then 7, the first emission call is [push(null)], the very
    call that marks end-of-stream; the stream ends with no item emitted
    and 7 is never pulled. *)
Lemma C2_counterexample :
  let items := [JNull; JNum 7] in
  let w := drive (fun _ => finite items) 3
             (start {| stream := Readable_call true;
                       _g := generator_object 0 1 |}) in
  emitted w = [] /\ emitted w <> items /\ at_end w = true /\ calls w = [1].
Proof. repeat split. discriminate. Qed.

(** C7: a sequence whose first pull reports completion, driven for at
    least one round, emits no item and then the end-of-stream marker,
    after a single pull. *)
Theorem C7_empty_sequence (code : fid -> nat -> behaviour) (g : jsval)
    (obj : StreamGenerators_obj) (f : fid) (ps : list (propkey * jsval))
    (v : jsval) (n : nat) :
  streamify g = Normal obj ->
  get g (KStr "next") = Normal (JFunction f ps) ->
  code f 0 = Returns (Fulfils (iter_result true v)) ->
  let w := drive code (S n) (start obj) in
  emitted w = [] /\ at_end w = true /\ notified w = [] /\ calls w = [f].
Proof.
  intros Hobj Hnext Hcode w. subst w.
  apply streamify_accepted in Hobj as [_ ->].
  rewrite (start_live g f). cbn [drive].
  rewrite (round_done code g f ps Hnext [] 0 v Hcode).
  rewrite drive_finished. repeat split.
Qed.

Lemma C7_empty_sequence_witness :
  let w := drive (fun _ => finite []) 4
             (start {| stream := Readable_call true;
                       _g := generator_object 0 1 |}) in
  emitted w = [] /\ at_end w = true /\ notified w = [] /\ calls w = [1].
Proof.
  apply (C7_empty_sequence (fun _ => finite []) (generator_object 0 1)
           {| stream := Readable_call true; _g := generator_object 0 1 |}
           1 [] JUndefined 3); reflexivity.
Defined.

(** C8 (as the code has it): when the pending pull of a running stream
    resolves to a result with [done] false, its [value], whatever its
    structure, is appended unchanged to what the stream has emitted,
    provided it is not [null]. *)
Theorem C8_passthrough (code : fid -> nat -> behaviour) (g : jsval)
    (obj : StreamGenerators_obj) (evs : list event)
    (props : list (propkey * jsval)) (v : jsval) :
  streamify g = Normal obj ->
  let w := run code evs (start obj) in
  reactions w = [Fulfils (JObject props)] ->
  assoc (KStr "done") props = JBool false ->
  assoc (KStr "value") props = v ->
  v <> JNull ->
  emitted (settle 0 w) = emitted w ++ [v] /\ at_end (settle 0 w) = false.
Proof.
  intros Hobj w Hq Hdone Hvalue Hv.
  apply streamify_accepted in Hobj as [_ ->].
  assert (Hw : disciplined w) by (apply disciplined_run, disciplined_start).
  destruct Hw as [[Hnil | [p [_ [_ [Hend _]]]]] _]; [congruence |].
  unfold settle. rewrite Hq. cbn [nth_error remove_nth].
  rewrite onFulfilled_object. unfold chunk_of. rewrite Hdone, Hvalue.
  unfold emitted, at_end. cbn [with_stream with_reactions this stream].
  unfold push. rewrite Hend.
  destruct v; try contradiction; split; reflexivity.
Qed.

Lemma C8_passthrough_witness :
  let w := run (fun _ => finite [record_item]) [Demand]
             (start {| stream := Readable_call true;
                       _g := generator_object 0 1 |}) in
  emitted (settle 0 w) = emitted w ++ [record_item] /\
  at_end (settle 0 w) = false.
Proof.
  apply (C8_passthrough (fun _ => finite [record_item])
           (generator_object 0 1)
           {| stream := Readable_call true; _g := generator_object 0 1 |}
           [Demand]
           [(KStr "done", JBool false); (KStr "value", record_item)]
           record_item).
  - reflexivity.
  - reflexivity.
  - reflexivity.
  - reflexivity.
  - discriminate.
Defined.

(** C8 (as the spec has it) fails: when the sequence yields [null], the
    consumer does not observe the value [null]; the stream ends. *)
Lemma C8_counterexample :
  let w := run (fun _ => finite [JNull; JNum 7]) [Demand]
             (start {| stream := Readable_call true;
                       _g := generator_object 0 1 |}) in
  reactions w = [Fulfils (iter_result false JNull)] /\
  emitted (settle 0 w) = [] /\ emitted (settle 0 w) <> emitted w ++ [JNull] /\
  at_end (settle 0 w) = true.
Proof. repeat split. discriminate. Qed.

(** ** The example generators *)

Section StringFacts.

Lemma append_nil_r (s : string) : (s ++ "")%string = s.
Proof. induction s as [| c s IH]; simpl; [| rewrite IH]; reflexivity. Qed.

Lemma append_assoc (a b c : string) :
  ((a ++ b) ++ c)%string = (a ++ (b ++ c))%string.
Proof. induction a as [| x a IH]; simpl; [| rewrite IH]; reflexivity. Qed.

Lemma length_append (a b : string) :
  String.length (a ++ b)%string = String.length a + String.length b.
Proof. induction a as [| x a IH]; simpl; [| rewrite IH]; reflexivity. Qed.

Lemma substring_prefix (a b : string) :
  substring 0 (String.length a) (a ++ b)%string = a.
Proof.
  induction a as [| x a IH]; simpl.
  - destruct b; reflexivity.
  - rewrite IH. reflexivity.
Qed.

Lemma substring_all (b : string) : substring 0 (String.length b) b = b.
Proof.
  induction b as [| x b IH]; simpl; [| rewrite IH]; reflexivity.
Qed.

Lemma substring_suffix (a b : string) :
  substring (String.length a) (String.length b) (a ++ b)%string = b.
Proof.
  induction a as [| x a IH]; simpl; [apply substring_all | exact IH].
Qed.

(** [indexOf] of the line feed, one character at a time. *)
Lemma indexOf_LF_cons (c : ascii) (s : string) :
  indexOf (String c s) LF =
    if Ascii.eqb c (ascii_of_nat 10) then 0%Z
    else if (indexOf s LF <? 0)%Z then (-1)%Z
         else (indexOf s LF + 1)%Z.
Proof.
  unfold indexOf, LF. cbn [index prefix].
  destruct (ascii_dec (ascii_of_nat 10) c) as [<- | Hne].
  - rewrite Ascii.eqb_refl. destruct s; reflexivity.
  - assert (Ascii.eqb c (ascii_of_nat 10) = false) as ->.
    { apply Ascii.eqb_neq. congruence. }
    destruct (index 0 (String (ascii_of_nat 10) "") s) as [i |].
    + assert ((Z.of_nat i <? 0)%Z = false) as -> by (apply Z.ltb_ge; lia). lia.
    + reflexivity.
Qed.

Lemma indexOf_LF_range (s : string) :
  indexOf s LF = (-1)%Z \/
  (0 <= indexOf s LF < Z.of_nat (String.length s))%Z.
Proof.
  induction s as [| c s IH]; [left; reflexivity |].
  rewrite indexOf_LF_cons. cbn [String.length].
  destruct (Ascii.eqb c (ascii_of_nat 10)); [right; lia |].
  destruct (indexOf s LF <? 0)%Z eqn:E; [left; reflexivity | right; lia].
Qed.

(** A string either has no line feed, or splits at its first one. *)
Lemma first_line_feed (s : string) :
  indexOf s LF = (-1)%Z \/
  exists pre post,
    s = (pre ++ LF ++ post)%string /\ indexOf pre LF = (-1)%Z /\
    indexOf s LF = Z.of_nat (String.length pre).
Proof.
  induction s as [| c s IH]; [left; reflexivity |].
  rewrite indexOf_LF_cons.
  destruct (Ascii.eqb c (ascii_of_nat 10)) eqn:Ec.
  - right. exists "", s. apply Ascii.eqb_eq in Ec. subst c.
    repeat split.
  - destruct IH as [Hnone | [pre [post [Hs [Hpre Hidx]]]]].
    + left. rewrite Hnone. reflexivity.
    + right. exists (String c pre), post. subst s. repeat split.
      * rewrite indexOf_LF_cons, Ec, Hpre. reflexivity.
      * rewrite Hidx. cbn [String.length].
        assert ((Z.of_nat (String.length pre) <? 0)%Z = false) as -> by (apply Z.ltb_ge; lia).
        lia.
Qed.

Lemma indexOf_split (pre post : string) :
  indexOf pre LF = (-1)%Z ->
  indexOf (pre ++ LF ++ post)%string LF = Z.of_nat (String.length pre).
Proof.
  induction pre as [| c pre IH]; intros Hpre.
  - cbn [append]. unfold LF. cbn [append].
    rewrite indexOf_LF_cons, Ascii.eqb_refl. reflexivity.
  - rewrite indexOf_LF_cons in Hpre. cbn [append].
    rewrite indexOf_LF_cons.
    destruct (Ascii.eqb c (ascii_of_nat 10)); [discriminate |].
    destruct (indexOf_LF_range pre) as [Hnone | Hsome].
    + rewrite (IH Hnone). cbn [String.length].
      assert ((Z.of_nat (String.length pre) <? 0)%Z = false) as -> by (apply Z.ltb_ge; lia).
      lia.
    + assert ((indexOf pre LF <? 0)%Z = false) as E by (apply Z.ltb_ge; lia).
      rewrite E in Hpre. lia.
Qed.

Lemma indexOf_append_none (a b : string) :
  indexOf a LF = (-1)%Z -> indexOf b LF = (-1)%Z ->
  indexOf (a ++ b)%string LF = (-1)%Z.
Proof.
  induction a as [| c a IH]; intros Ha Hb; [exact Hb |].
  rewrite indexOf_LF_cons in Ha. cbn [append].
  rewrite indexOf_LF_cons.
  destruct (Ascii.eqb c (ascii_of_nat 10)); [discriminate |].
  destruct (indexOf_LF_range a) as [Hnone | Hsome].
  - rewrite (IH Hnone Hb). reflexivity.
  - assert ((indexOf a LF <? 0)%Z = false) as E by (apply Z.ltb_ge; lia).
    rewrite E in Ha. lia.
Qed.

Lemma slice_line (pre post : string) :
  slice (pre ++ LF ++ post)%string 0
    (Some (Z.of_nat (String.length pre) + 1)%Z) = (pre ++ LF)%string.
Proof.
  unfold slice, relative_index.
  rewrite !length_append. cbn [LF String.length].
  assert ((0 <? 0)%Z = false) as -> by reflexivity.
  assert ((Z.of_nat (String.length pre) + 1 <? 0)%Z = false) as -> by (apply Z.ltb_ge; lia).
  rewrite <- append_assoc.
  replace (Z.to_nat (Z.min 0 _)) with 0 by lia.
  match goal with
  | |- substring 0 ?m _ = _ =>
      replace m with (String.length (pre ++ LF)%string)
        by (rewrite length_append; cbn [LF String.length]; lia)
  end.
  apply substring_prefix.
Qed.

Lemma slice_rest (pre post : string) :
  slice (pre ++ LF ++ post)%string (Z.of_nat (String.length pre) + 1) None =
    post.
Proof.
  unfold slice, relative_index.
  rewrite !length_append. cbn [LF String.length].
  assert ((Z.of_nat (String.length pre) + 1 <? 0)%Z = false) as -> by (apply Z.ltb_ge; lia).
  rewrite <- append_assoc.
  match goal with
  | |- substring ?n ?m _ = _ =>
      replace n with (String.length (pre ++ LF)%string)
        by (rewrite length_append; cbn [LF String.length]; lia);
      replace m with (String.length post)
        by (rewrite ?length_append; cbn [LF String.length]; lia)
  end.
  apply substring_suffix.
Qed.

End StringFacts.

(** The loop, one line at a time. *)
Lemma eol_loop_rest (s : string) :
  indexOf s LF = (-1)%Z -> eol_loop s = ([], s).
Proof.
  intros Hnone. funelim (eol_loop s).
  - exfalso. clear -found Hnone. rewrite Hnone in found. discriminate.
  - reflexivity.
Qed.

Lemma eol_loop_line (pre post : string) :
  indexOf pre LF = (-1)%Z ->
  eol_loop (pre ++ LF ++ post)%string =
    let (yielded, rest) := eol_loop post in
    ((pre ++ LF)%string :: yielded, rest).
Proof.
  intros Hpre.
  pose proof (indexOf_split pre post Hpre) as Hidx.
  remember (pre ++ LF ++ post)%string as s eqn:Hs.
  funelim (eol_loop s).
  - rewrite Hidx, slice_line, slice_rest. reflexivity.
  - exfalso. clear -absent Hidx. rewrite Hidx in absent.
    apply Z.leb_gt in absent. lia.
Qed.

Lemma complete_line_intro (pre : string) :
  indexOf pre LF = (-1)%Z -> complete_line (pre ++ LF)%string.
Proof.
  intros Hpre. unfold complete_line.
  pose proof (indexOf_split pre "" Hpre) as Hidx.
  change (LF ++ "")%string with LF in Hidx.
  rewrite Hidx, length_append. cbn [LF String.length]. lia.
Qed.

Lemma join_app (xs ys : list string) :
  join (xs ++ ys) = (join xs ++ join ys)%string.
Proof.
  induction xs as [| x xs IH]; [reflexivity |].
  cbn [app join fold_right]. fold (join (xs ++ ys)) (join xs).
  rewrite IH, append_assoc. reflexivity.
Qed.

(** What the [while] loop computes: the yielded lines and the rest put
    back together are the input, every yielded line is complete, and the
    rest has no line feed. *)
Lemma eol_loop_spec (s : string) :
  (join (fst (eol_loop s)) ++ snd (eol_loop s))%string = s /\
  Forall complete_line (fst (eol_loop s)) /\
  indexOf (snd (eol_loop s)) LF = (-1)%Z.
Proof.
  remember (String.length s) as n eqn:Hn.
  revert s Hn. induction n as [n IH] using lt_wf_ind. intros s Hn.
  destruct (first_line_feed s) as [Hnone | [pre [post [Hs [Hpre _]]]]].
  - rewrite (eol_loop_rest s Hnone). repeat split; [constructor | exact Hnone].
  - subst s. rewrite (eol_loop_line pre post Hpre).
    destruct (IH (String.length post)) with (s := post)
      as [Hjoin [Hlines Hrest]]; [| reflexivity |].
    { subst n. rewrite !length_append. cbn [LF String.length]. lia. }
    destruct (eol_loop post) as [yielded rest]. cbn [fst snd] in *.
    repeat split.
    + cbn [join fold_right]. fold (join yielded).
      rewrite !append_assoc. rewrite Hjoin. reflexivity.
    + constructor; [apply complete_line_intro; exact Hpre | exact Hlines].
    + exact Hrest.
Qed.

(** Feeding the loop a string in two pieces, the rest of the first being
    carried over, yields the same as feeding it the whole. *)
Lemma eol_loop_app (a b : string) :
  eol_loop (a ++ b)%string =
    let (ys, r) := eol_loop a in
    let (ys', r') := eol_loop (r ++ b)%string in
    (ys ++ ys', r').
Proof.
  remember (String.length a) as n eqn:Hn.
  revert a Hn. induction n as [n IH] using lt_wf_ind. intros a Hn.
  destruct (first_line_feed a) as [Hnone | [pre [post [Ha [Hpre _]]]]].
  - rewrite (eol_loop_rest a Hnone).
    destruct (eol_loop (a ++ b)%string). reflexivity.
  - subst a.
    replace ((pre ++ LF ++ post) ++ b)%string
      with (pre ++ LF ++ (post ++ b))%string
      by (rewrite !append_assoc; reflexivity).
    rewrite !(eol_loop_line pre _ Hpre).
    rewrite (IH (String.length post)) with (a := post); [| | reflexivity].
    + destruct (eol_loop post) as [ys r].
      destruct (eol_loop (r ++ b)%string) as [ys' r']. reflexivity.
    + subst n. rewrite !length_append. cbn [LF String.length]. lia.
Qed.

(** The generator as a function of the whole text. *)
Lemma chunk_loop_whole (chunks : list string) (previous : string) :
  indexOf previous LF = (-1)%Z ->
  chunk_loop chunks previous =
    let (ys, r) := eol_loop (previous ++ join chunks)%string in
    ys ++ remainder r.
Proof.
  revert previous. induction chunks as [| chunk rest IH]; intros previous Hp.
  - cbn [join fold_right]. rewrite append_nil_r, (eol_loop_rest _ Hp).
    reflexivity.
  - cbn [chunk_loop join fold_right]. fold (join rest).
    rewrite <- (append_assoc previous chunk (join rest)).
    rewrite (eol_loop_app (previous ++ chunk)%string (join rest)).
    pose proof (eol_loop_spec (previous ++ chunk)%string) as [_ [_ Hr]].
    destruct (eol_loop (previous ++ chunk)%string) as [ys r].
    cbn [snd] in Hr. rewrite (IH r Hr).
    destruct (eol_loop (r ++ join rest)%string) as [ys' r'].
    rewrite app_assoc. reflexivity.
Qed.

Lemma chunksToLines_whole (chunks : list string) :
  chunksToLines chunks =
    fst (eol_loop (join chunks)) ++ remainder (snd (eol_loop (join chunks))).
Proof.
  unfold chunksToLines. rewrite chunk_loop_whole by reflexivity.
  cbn [append]. destruct (eol_loop (join chunks)). reflexivity.
Qed.

Lemma join_remainder (r : string) : join (remainder r) = r.
Proof.
  unfold remainder. cbn [chunk_loop].
  destruct r as [| c r]; [reflexivity |].
  cbn [String.length Nat.ltb Nat.leb join fold_right].
  rewrite append_nil_r. reflexivity.
Qed.

(** No character is lost, added or moved: the yielded lines put back
    together are the chunks put together. *)
Theorem chunksToLines_keeps_text (chunks : list string) :
  join (chunksToLines chunks) = join chunks.
Proof.
  rewrite chunksToLines_whole, join_app, join_remainder.
  apply eol_loop_spec.
Qed.

(** The yields do not depend on where the text was cut into chunks. *)
Theorem chunksToLines_chunking (chunks chunks' : list string) :
  join chunks = join chunks' ->
  chunksToLines chunks = chunksToLines chunks'.
Proof.
  intros Hsame. rewrite !chunksToLines_whole, Hsame. reflexivity.
Qed.

(** Every yield but possibly the last is a complete line; the last may
    instead be a non-empty piece of text with no line feed. *)
Theorem chunksToLines_shape (chunks : list string) :
  exists lines tail,
    chunksToLines chunks = lines ++ tail /\
    Forall complete_line lines /\
    (tail = [] \/
     exists r, tail = [r] /\ r <> "" /\ indexOf r LF = (-1)%Z).
Proof.
  exists (fst (eol_loop (join chunks))),
         (remainder (snd (eol_loop (join chunks)))).
  pose proof (eol_loop_spec (join chunks)) as [_ [Hlines Hrest]].
  split; [apply chunksToLines_whole |]. split; [exact Hlines |].
  unfold remainder. cbn [chunk_loop].
  destruct (snd (eol_loop (join chunks))) as [| c r] eqn:E.
  - left. reflexivity.
  - right. exists (String c r). repeat split; [discriminate | exact Hrest].
Qed.

(** Text without a line feed is yielded whole, once; no text, nothing. *)
Theorem chunksToLines_no_line_feed (chunks : list string) :
  indexOf (join chunks) LF = (-1)%Z ->
  chunksToLines chunks =
    if Nat.ltb 0 (String.length (join chunks)) then [join chunks] else [].
Proof.
  intros Hnone. rewrite chunksToLines_whole, (eol_loop_rest _ Hnone).
  reflexivity.
Qed.

Lemma number_loop_nth (lines : list string) (counter : N) (k : nat)
    (line : string) :
  nth_error lines k = Some line ->
  (counter + N.of_nat k <= 2 ^ 53)%N ->
  nth_error (number_loop lines counter) k =
    Some (Number_toString (counter + N.of_nat k) ++ ": " ++ line)%string.
Proof.
  change (2 ^ 53)%N with 9007199254740992%N.
  revert counter k.
  induction lines as [| l lines IH]; intros counter k Hk Hbound.
  - destruct k; discriminate.
  - destruct k as [| k]; cbn [nth_error number_loop] in *.
    + inversion Hk; subst. rewrite N.add_0_r. reflexivity.
    + assert ((counter <? 2 ^ 53)%N = true) as Hlt.
      { apply N.ltb_lt. change (2 ^ 53)%N with 9007199254740992%N. lia. }
      rewrite (IH (increment counter) k Hk); unfold increment; rewrite Hlt.
      * replace (counter + 1 + N.of_nat k)%N
          with (counter + N.of_nat (S k))%N by lia.
        reflexivity.
      * lia.
Qed.

Lemma number_loop_length (lines : list string) (counter : N) :
  List.length (number_loop lines counter) = List.length lines.
Proof.
  revert counter. induction lines as [| l lines IH]; intros counter;
    [reflexivity |].
  cbn [number_loop List.length]. rewrite IH. reflexivity.
Qed.

(** One yield per line, and the line at position [k] (from 0) is yielded
    as the decimal digits of [k + 1], a colon, a space, and the line
    itself. *)
Theorem numberOfLines_numbers (lines : list string) (k : nat)
    (line : string) :
  nth_error lines k = Some line ->
  (N.of_nat k < 2 ^ 53)%N ->
  List.length (numberOfLines lines) = List.length lines /\
  nth_error (numberOfLines lines) k =
    Some (Number_toString (N.of_nat k + 1) ++ ": " ++ line)%string.
Proof.
  intros Hk Hbound. split; [apply number_loop_length |].
  unfold numberOfLines.
  rewrite (number_loop_nth lines 1 k line Hk)
    by (change (2 ^ 53)%N with 9007199254740992%N in *; lia).
  rewrite N.add_comm. reflexivity.
Qed.

Lemma chunksToLines_chunking_witness :
  chunksToLines ["ab"; ("c" ++ LF ++ "d")%string; (LF ++ "e")%string] =
  chunksToLines [("abc" ++ LF ++ "d" ++ LF)%string; ""; "e"].
Proof.
  apply (chunksToLines_chunking
           ["ab"; ("c" ++ LF ++ "d")%string; (LF ++ "e")%string]
           [("abc" ++ LF ++ "d" ++ LF)%string; ""; "e"]).
  reflexivity.
Defined.

Lemma chunksToLines_no_line_feed_witness :
  chunksToLines ["ab"; ""; "cd"] =
    if Nat.ltb 0 (String.length (join ["ab"; ""; "cd"]))
    then [join ["ab"; ""; "cd"]] else [].
Proof.
  apply (chunksToLines_no_line_feed ["ab"; ""; "cd"]). reflexivity.
Defined.

Lemma numberOfLines_numbers_witness :
  List.length (numberOfLines ["a"; "b"; "c"]) = List.length ["a"; "b"; "c"] /\
  nth_error (numberOfLines ["a"; "b"; "c"]) 2 =
    Some (Number_toString (N.of_nat 2 + 1) ++ ": " ++ "c")%string.
Proof.
  apply (numberOfLines_numbers ["a"; "b"; "c"] 2 "c").
  - reflexivity.
  - reflexivity.
Defined.

(** ** The examples piped through the adapter *)

Lemma strings_not_null (ls : list string) :
  Forall (fun v => v <> JNull) (map JStr ls).
Proof.
  induction ls as [| l ls IH]; constructor; [discriminate | exact IH].
Qed.

(** [streamify(numberOfLines(chunksToLines(readStream)))]: whatever chunks
    the file is read in, the stream emits its numbered lines as strings,
    in order, then ends, with no error. *)
Theorem server_streams_numbered_lines (code : fid -> nat -> behaviour)
    (g : jsval) (obj : StreamGenerators_obj) (f : fid)
    (ps : list (propkey * jsval)) (chunks : list string) (n : nat) :
  streamify g = Normal obj ->
  get g (KStr "next") = Normal (JFunction f ps) ->
  (forall k,
     code f k =
       finite (map JStr (numberOfLines (chunksToLines chunks))) k) ->
  let items := map JStr (numberOfLines (chunksToLines chunks)) in
  let w := drive code (S (List.length items) + n) (start obj) in
  emitted w = items /\ at_end w = true /\ notified w = [] /\
  unhandled w = [].
Proof.
  intros Hobj Hnext Hcode items w. subst w.
  apply streamify_accepted in Hobj as [_ ->].
  rewrite (start_live g f).
  rewrite (drive_finite code g f ps Hnext items n Hcode
             (strings_not_null _)).
  repeat split.
Qed.

Lemma server_streams_numbered_lines_witness :
  let chunks := ["ab"; ("c" ++ LF ++ "d")%string; (LF ++ "e")%string] in
  let items := map JStr (numberOfLines (chunksToLines chunks)) in
  let w := drive (fun _ => finite items) (S (List.length items) + 1)
             (start {| stream := Readable_call true;
                       _g := generator_object 0 1 |}) in
  emitted w = items /\ at_end w = true /\ notified w = [] /\
  unhandled w = [].
Proof.
  intros chunks items.
  apply (server_streams_numbered_lines (fun _ => finite items)
           (generator_object 0 1)
           {| stream := Readable_call true; _g := generator_object 0 1 |}
           1 [] chunks 1).
  - reflexivity.
  - reflexivity.
  - intros k. reflexivity.
Defined.

(** ** What any sequence of events can do *)

Section Effects.

Variable code : fid -> nat -> behaviour.

Lemma push_buffer (c : jsval) (s : Readable) :
  buffer (snd (push c s)) = buffer s \/
  buffer (snd (push c s)) = buffer s ++ [c].
Proof.
  unfold push. destruct c; try (left; reflexivity);
    destruct (ended s); cbn [snd buffer]; auto.
Qed.

Lemma remove_nth_length {A} (i : nat) (l : list A) (x : A) :
  nth_error l i = Some x ->
  S (List.length (remove_nth i l)) = List.length l.
Proof.
  revert i. induction l as [| y l IH]; intros i Hi.
  - destruct i; discriminate.
  - destruct i as [| i]; cbn [remove_nth List.length]; [reflexivity |].
    cbn [nth_error] in Hi. rewrite (IH i Hi). reflexivity.
Qed.

(** One event: the wrapped object stays bound, at most one function is
    called and it is the object's own [next], and what is emitted grows at
    its end by at most the pull that settled. *)
Lemma step_shape (w : world) (ev : event) :
  let w' := step code w ev in
  _g (this w') = _g (this w) /\
  (calls w' = calls w \/
   exists f ps,
     get (_g (this w)) (KStr "next") = Normal (JFunction f ps) /\
     calls w' = calls w ++ [f]) /\
  exists more,
    emitted w' = emitted w ++ more /\
    List.length more + List.length (reactions w') + List.length (calls w)
      <= List.length (reactions w) + List.length (calls w').
Proof.
  assert (Hsame : _g (this w) = _g (this w) /\
    (calls w = calls w \/
     exists f ps,
       get (_g (this w)) (KStr "next") = Normal (JFunction f ps) /\
       calls w = calls w ++ [f]) /\
    exists more,
      emitted w = emitted w ++ more /\
      List.length more + List.length (reactions w) + List.length (calls w)
        <= List.length (reactions w) + List.length (calls w)).
  { split; [reflexivity |]. split; [left; reflexivity |].
    exists []. rewrite app_nil_r. split; [reflexivity | simpl; lia]. }
  destruct ev as [| i]; cbn [step].
  - unfold demand.
    destruct (ended (stream (this w)) || reading (stream (this w)));
      [exact Hsame |].
    set (w0 := with_stream (begin_read (stream (this w))) w).
    destruct (_read_cases code JUndefined w0) as [w1 [Hrun Hw1]].
    rewrite Hrun. cbn [snd].
    change (_g (this w0)) with (_g (this w)) in Hw1.
    destruct (get (_g (this w)) (KStr "next")) as [v | e] eqn:Hnext.
    + destruct v;
        try (subst w1; split; [reflexivity |]; split; [left; reflexivity |];
             exists []; rewrite app_nil_r; split;
             [reflexivity | simpl; lia]).
      destruct (code f (count_occ Nat.eq_dec (calls w0) f)); subst w1;
        (split; [reflexivity |]; split;
         [right; exists f, props; split; reflexivity |];
         exists []; rewrite app_nil_r; split; [reflexivity |];
         cbn; rewrite ?length_app; simpl; lia).
    + subst w1. split; [reflexivity |]. split; [left; reflexivity |].
      exists []. rewrite app_nil_r. split; [reflexivity | simpl; lia].
  - unfold settle.
    destruct (nth_error (reactions w) i) as [p |] eqn:Hi; [| exact Hsame].
    pose proof (remove_nth_length i (reactions w) p Hi) as Hlen.
    destruct p as [r | e |]; [| | exact Hsame].
    + set (w0 := with_reactions (remove_nth i (reactions w)) w).
      destruct (onFulfilled_world r w0) as [[e He] | [c Hc]].
      * rewrite He. split; [reflexivity |]. split; [left; reflexivity |].
        exists []. rewrite app_nil_r. split; [reflexivity |].
        cbn. lia.
      * rewrite Hc. split; [reflexivity |]. split; [left; reflexivity |].
        unfold emitted. cbn [with_stream this stream w0 with_reactions].
        destruct (push_buffer c (stream (this w))) as [Hb | Hb];
          rewrite Hb.
        -- exists []. rewrite app_nil_r. split; [reflexivity |].
           cbn. lia.
        -- exists [c]. split; [reflexivity |]. cbn. lia.
    + split; [reflexivity |]. split; [left; reflexivity |].
      exists []. rewrite app_nil_r. split; [reflexivity |]. cbn. lia.
Qed.

Lemma run_shape (evs : list event) (w : world) :
  let w' := run code evs w in
  _g (this w') = _g (this w) /\
  (forall f ps,
     get (_g (this w)) (KStr "next") = Normal (JFunction f ps) ->
     exists k, calls w' = calls w ++ repeat f k) /\
  exists more,
    emitted w' = emitted w ++ more /\
    List.length more + List.length (reactions w') + List.length (calls w)
      <= List.length (reactions w) + List.length (calls w').
Proof.
  revert w. induction evs as [| ev evs IH]; intros w.
  - cbn [run fold_left]. split; [reflexivity |]. split.
    + intros f ps _. exists 0. rewrite app_nil_r. reflexivity.
    + exists []. rewrite app_nil_r. split; [reflexivity | simpl; lia].
  - cbn [run fold_left]. fold (run code evs (step code w ev)).
    destruct (step_shape w ev) as [Hg [Hcalls [m1 [Hm1 Hb1]]]].
    destruct (IH (step code w ev)) as [Hg' [Hcalls' [m2 [Hm2 Hb2]]]].
    split; [congruence |]. split.
    + intros f ps Hnext.
      rewrite Hg in Hcalls'.
      destruct (Hcalls' f ps Hnext) as [k Hk].
      destruct Hcalls as [Hc | [f' [ps' [Hnext' Hc]]]].
      * exists k. rewrite Hk, Hc. reflexivity.
      * rewrite Hnext in Hnext'. inversion Hnext'; subst f' ps'.
        exists (S k). rewrite Hk, Hc, <- app_assoc. reflexivity.
    + exists (m1 ++ m2). rewrite Hm2, Hm1, <- app_assoc.
      split; [reflexivity |]. rewrite length_app. lia.
Qed.

End Effects.

(** Whatever events occur, in whatever order and with or without the
    host's discipline being of any help, every user function called is
    the wrapped object's own [next]. *)
Theorem only_own_next_called (code : fid -> nat -> behaviour)
    (evs : list event) (w : world) (f : fid) (ps : list (propkey * jsval)) :
  get (_g (this w)) (KStr "next") = Normal (JFunction f ps) ->
  exists k, calls (run code evs w) = calls w ++ repeat f k.
Proof.
  intros Hnext. destruct (run_shape code evs w) as [_ [Hcalls _]].
  exact (Hcalls f ps Hnext).
Qed.

Lemma only_own_next_called_witness :
  exists k,
    calls (run (fun _ => finite [JNum 1]) [Demand; Settle 0; Demand]
             (start {| stream := Readable_call true;
                       _g := generator_object 0 1 |})) =
      [] ++ repeat 1 k.
Proof.
  apply (only_own_next_called (fun _ => finite [JNum 1])
           [Demand; Settle 0; Demand]
           (start {| stream := Readable_call true;
                     _g := generator_object 0 1 |}) 1 []).
  reflexivity.
Defined.


(** From the object that construction returns, each emitted item and each
    outstanding pull is paid for by a call of [next]: the adapter never
    emits more items than it has pulled. *)
Theorem items_bounded_by_pulls (code : fid -> nat -> behaviour)
    (evs : list event) (g : jsval) :
  let w := run code evs (start {| stream := Readable_call true; _g := g |}) in
  List.length (emitted w) + outstanding w <= List.length (calls w).
Proof.
  intros w. subst w.
  destruct (run_shape code evs
              (start {| stream := Readable_call true; _g := g |}))
    as [_ [_ [more [Hmore Hb]]]].
  rewrite Hmore. unfold outstanding. cbn in Hb |- *. lia.
Qed.

(** The wrapped object is bound once: no event rebinds [_g]. *)
Lemma wrapped_object_never_rebound (code : fid -> nat -> behaviour)
    (evs : list event) (w : world) :
  _g (this (run code evs w)) = _g (this w).
Proof. apply (run_shape code evs w). Qed.

(** ** Pulls that fail, resolve oddly, or never settle *)

Section OddPulls.

Variable code : fid -> nat -> behaviour.
Variable g : jsval.
Variable f : fid.
Variable ps : list (propkey * jsval).
Hypothesis own_next : get g (KStr "next") = Normal (JFunction f ps).

(** One round on a result that is [null] or [undefined]: reading its
    [done] throws inside the callback. *)
Lemma round_nullish (items : list jsval) (j : nat) (r e : jsval) :
  code f j = Returns (Fulfils r) ->
  get r (KStr "done") = Throw e ->
  settle 0 (demand code (live g f items j)) = stalled g f items (S j) e.
Proof.
  intros Hcode Hdone.
  rewrite (demand_live code g f ps own_next items j _ Hcode).
  unfold settle. cbn [pulling reactions nth_error remove_nth].
  unfold onFulfilled, bind, lift. rewrite Hdone. reflexivity.
Qed.

(** One round on a result that is a boolean, a number or a string: its
    [done] reads as [undefined]. *)
Lemma round_primitive (items : list jsval) (j : nat) (r : jsval) :
  code f j = Returns (Fulfils r) ->
  get r (KStr "done") = Normal JUndefined ->
  settle 0 (demand code (live g f items j)) = finished g f items (S j).
Proof.
  intros Hcode Hdone.
  rewrite (demand_live code g f ps own_next items j _ Hcode).
  unfold settle. cbn [pulling reactions nth_error remove_nth].
  unfold onFulfilled, bind, lift. rewrite Hdone. reflexivity.
Qed.

(** While the pull issued from [live items j] never settles, no event
    moves the world. *)
Lemma pending_run (items : list jsval) (j : nat) (evs : list event) :
  run code evs (pulling g f items j Pends) = pulling g f items j Pends.
Proof.
  induction evs as [| ev evs IH]; [reflexivity |].
  cbn [run fold_left]. fold (run code evs).
  destruct ev as [| i]; cbn [step].
  - exact IH.
  - destruct i as [| [| i]]; exact IH.
Qed.

End OddPulls.

Lemma sync_throw_signalled_witness :
  let w := drive (fun _ => yields_then [JNum 1] (Throws (JStr "E")))
             (S (List.length [JNum 1]) + 2)
             (start {| stream := Readable_call true;
                       _g := generator_object 0 1 |}) in
  emitted w = [JNum 1] /\ notified w = [JStr "E"] /\ at_end w = false.
Proof.
  apply (sync_throw_signalled
           (fun _ => yields_then [JNum 1] (Throws (JStr "E")))
           (generator_object 0 1)
           {| stream := Readable_call true; _g := generator_object 0 1 |}
           1 [] [JNum 1] (JStr "E") 2).
  - reflexivity.
  - reflexivity.
  - intros k. reflexivity.
  - repeat constructor; discriminate.
Defined.

(** A pull whose promise rejects, after any non-null items: the items are
    emitted and then the stream stalls for good.  The reason is never
    notified as an ["error"], end-of-stream is never emitted, the read
    stays in progress, and the rejection is left without a handler. *)
Theorem async_rejection_never_notified (code : fid -> nat -> behaviour)
    (g : jsval) (obj : StreamGenerators_obj) (f : fid)
    (ps : list (propkey * jsval)) (items : list jsval) (e : jsval)
    (n : nat) :
  streamify g = Normal obj ->
  get g (KStr "next") = Normal (JFunction f ps) ->
  (forall k, code f k = yields_then items (Returns (Rejects e)) k) ->
  Forall (fun v => v <> JNull) items ->
  let w := drive code (S (List.length items) + n) (start obj) in
  emitted w = items /\ notified w = [] /\ at_end w = false /\
  reading (stream (this w)) = true /\ unhandled w = [e] /\
  calls w = repeat f (S (List.length items)).
Proof.
  intros Hobj Hnext Hcode Hnn w. subst w.
  apply streamify_accepted in Hobj as [_ ->].
  rewrite (start_live g f).
  rewrite (drive_rejecting code g f ps Hnext items e n Hcode Hnn).
  repeat split.
Qed.

Lemma async_rejection_never_notified_witness :
  let items := [JStr "a"; JStr "b"; JStr "c"] in
  let w := drive (fun _ => yields_then items (Returns (Rejects (JNum 5))))
             (S (List.length items) + 0)
             (start {| stream := Readable_call true;
                       _g := generator_object 0 1 |}) in
  emitted w = items /\ notified w = [] /\ at_end w = false /\
  reading (stream (this w)) = true /\ unhandled w = [JNum 5] /\
  calls w = repeat 1 (S (List.length items)).
Proof.
  intros items.
  apply (async_rejection_never_notified
           (fun _ => yields_then items (Returns (Rejects (JNum 5))))
           (generator_object 0 1)
           {| stream := Readable_call true; _g := generator_object 0 1 |}
           1 [] items (JNum 5) 0).
  - reflexivity.
  - reflexivity.
  - intros k. reflexivity.
  - repeat constructor; discriminate.
Defined.

(** A pull that resolves to [null] or [undefined] instead of a result
    object, after any non-null items: reading [r.done] throws inside the
    callback, out of reach of the [try] of [_read].  The items are
    emitted, then nothing: no error notified, no end-of-stream, and the
    [TypeError] is left in a rejected promise without a handler. *)
Theorem nullish_result_stalls (code : fid -> nat -> behaviour)
    (g : jsval) (obj : StreamGenerators_obj) (f : fid)
    (ps : list (propkey * jsval)) (items : list jsval) (r : jsval)
    (n : nat) :
  streamify g = Normal obj ->
  get g (KStr "next") = Normal (JFunction f ps) ->
  (forall k, code f k = yields_then items (Returns (Fulfils r)) k) ->
  Forall (fun v => v <> JNull) items ->
  loose_eq_null r = true ->
  let w := drive code (S (List.length items) + n) (start obj) in
  emitted w = items /\ notified w = [] /\ at_end w = false /\
  exists e, get r (KStr "done") = Throw e /\ unhandled w = [e].
Proof.
  intros Hobj Hnext Hcode Hnn Hnull w. subst w.
  apply streamify_accepted in Hobj as [_ ->].
  assert (Hthrow : exists e, get r (KStr "done") = Throw e).
  { destruct r; try discriminate; eexists; reflexivity. }
  destruct Hthrow as [e He].
  rewrite (start_live g f).
  replace (S (List.length items) + n) with (List.length items + S n) by lia.
  rewrite drive_add.
  rewrite (drive_items code g f ps Hnext (Returns (Fulfils r)) items [] 0
             Hcode Hnn).
  cbn [app Nat.add drive].
  rewrite (round_nullish code g f ps Hnext items _ r e
             (after_items code f _ items Hcode) He).
  rewrite drive_stalled.
  repeat split. exists e. split; [exact He | reflexivity].
Qed.

Lemma nullish_result_stalls_witness :
  let items := [JNum 1] in
  let w := drive (fun _ => yields_then items (Returns (Fulfils JUndefined)))
             (S (List.length items) + 1)
             (start {| stream := Readable_call true;
                       _g := generator_object 0 1 |}) in
  emitted w = items /\ notified w = [] /\ at_end w = false /\
  exists e, get JUndefined (KStr "done") = Throw e /\ unhandled w = [e].
Proof.
  intros items.
  apply (nullish_result_stalls
           (fun _ => yields_then items (Returns (Fulfils JUndefined)))
           (generator_object 0 1)
           {| stream := Readable_call true; _g := generator_object 0 1 |}
           1 [] items JUndefined 1).
  - reflexivity.
  - reflexivity.
  - intros k. reflexivity.
  - repeat constructor; discriminate.
  - reflexivity.
Defined.

(** A pull that resolves to a boolean, a number or a string instead of a
    result object, after any non-null items: [r.done] reads as
    [undefined], which is not [false], so the stream ends after the
    items. *)
Theorem primitive_result_ends (code : fid -> nat -> behaviour)
    (g : jsval) (obj : StreamGenerators_obj) (f : fid)
    (ps : list (propkey * jsval)) (items : list jsval) (r : jsval)
    (n : nat) :
  streamify g = Normal obj ->
  get g (KStr "next") = Normal (JFunction f ps) ->
  (forall k, code f k = yields_then items (Returns (Fulfils r)) k) ->
  Forall (fun v => v <> JNull) items ->
  typeof r = "boolean" \/ typeof r = "number" \/ typeof r = "string" ->
  let w := drive code (S (List.length items) + n) (start obj) in
  emitted w = items /\ at_end w = true /\ notified w = [] /\
  unhandled w = [].
Proof.
  intros Hobj Hnext Hcode Hnn Hprim w. subst w.
  apply streamify_accepted in Hobj as [_ ->].
  assert (Hdone : get r (KStr "done") = Normal JUndefined).
  { destruct r; try reflexivity;
      destruct Hprim as [H | [H | H]]; discriminate. }
  rewrite (start_live g f).
  replace (S (List.length items) + n) with (List.length items + S n) by lia.
  rewrite drive_add.
  rewrite (drive_items code g f ps Hnext (Returns (Fulfils r)) items [] 0
             Hcode Hnn).
  cbn [app Nat.add drive].
  rewrite (round_primitive code g f ps Hnext items _ r
             (after_items code f _ items Hcode) Hdone).
  rewrite drive_finished.
  repeat split.
Qed.

Lemma primitive_result_ends_witness :
  let items := [JNum 1] in
  let w := drive (fun _ => yields_then items (Returns (Fulfils (JStr "x"))))
             (S (List.length items) + 1)
             (start {| stream := Readable_call true;
                       _g := generator_object 0 1 |}) in
  emitted w = items /\ at_end w = true /\ notified w = [] /\
  unhandled w = [].
Proof.
  intros items.
  apply (primitive_result_ends
           (fun _ => yields_then items (Returns (Fulfils (JStr "x"))))
           (generator_object 0 1)
           {| stream := Readable_call true; _g := generator_object 0 1 |}
           1 [] items (JStr "x") 1).
  - reflexivity.
  - reflexivity.
  - intros k. reflexivity.
  - repeat constructor; discriminate.
  - right. right. reflexivity.
Defined.

(** A pull whose promise never settles blocks the stream for good: after
    the demand signal that issued it, no sequence of host events pulls
    again, emits, ends the stream or notifies an error. *)
Theorem pending_pull_blocks (code : fid -> nat -> behaviour)
    (g : jsval) (obj : StreamGenerators_obj) (f : fid)
    (ps : list (propkey * jsval)) (evs : list event) :
  streamify g = Normal obj ->
  get g (KStr "next") = Normal (JFunction f ps) ->
  code f 0 = Returns Pends ->
  let w := run code (Demand :: evs) (start obj) in
  calls w = [f] /\ outstanding w = 1 /\ emitted w = [] /\
  at_end w = false /\ notified w = [].
Proof.
  intros Hobj Hnext Hcode w. subst w.
  apply streamify_accepted in Hobj as [_ ->].
  rewrite (start_live g f). cbn [run fold_left step].
  rewrite (demand_live code g f ps Hnext [] 0 Pends Hcode).
  fold (run code evs (pulling g f [] 0 Pends)).
  rewrite pending_run. repeat split.
Qed.

Lemma pending_pull_blocks_witness :
  let w := run (fun _ _ => Returns Pends)
             (Demand :: [Demand; Settle 0; Settle 1; Demand])
             (start {| stream := Readable_call true;
                       _g := generator_object 0 1 |}) in
  calls w = [1] /\ outstanding w = 1 /\ emitted w = [] /\
  at_end w = false /\ notified w = [].
Proof.
  apply (pending_pull_blocks (fun _ _ => Returns Pends)
           (generator_object 0 1)
           {| stream := Readable_call true; _g := generator_object 0 1 |}
           1 [] [Demand; Settle 0; Settle 1; Demand]).
  - reflexivity.
  - reflexivity.
  - reflexivity.
Defined.

Lemma two_reads_two_outstanding_witness :
  reactions
    (snd (_read (fun _ => finite [JNum 1; JNum 2]) JUndefined
            (snd (_read (fun _ => finite [JNum 1; JNum 2]) JUndefined
                    (start {| stream := Readable_call true;
                              _g := generator_object 0 1 |}))))) =
    [] ++ [Fulfils (iter_result false (JNum 1));
           Fulfils (iter_result false (JNum 2))].
Proof.
  apply (two_reads_two_outstanding (fun _ => finite [JNum 1; JNum 2])
           JUndefined
           (start {| stream := Readable_call true;
                     _g := generator_object 0 1 |}) 1 []).
  - reflexivity.
  - reflexivity.
  - reflexivity.
Defined.
